(** * Site geo DAO (site_geo.dao): a shallow embedding of the DAO, its
      record codec, the JavaScript values it handles and the store commands
      it issues. *)

From Stdlib Require Import ZArith QArith Qabs List Ascii String Bool Lia.
From Stdlib Require Import Decimal DecimalPos.
From Stdlib Require DecimalFacts.
From stdpp Require Import base gmap strings stringmap.

Import ListNotations.
Set Warnings "-register-all".
Open Scope Z_scope.

(** ** JavaScript numbers

    A finite number is written [NFin m e], the decimal [m * 10^e].  A binary64
    value is represented by its shortest decimal (the digits that
    [Number::toString] prints), so the canonical form has no trailing zero in
    [m]; [-0] is identified with [0], as [===] does. *)

Inductive number : Type :=
| NFin (m e : Z)
| NPosInf
| NNegInf
| NNaN.

Definition canonicalb (x : number) : bool :=
  match x with
  | NFin m e => if m =? 0 then e =? 0 else negb (Z.rem m 10 =? 0)
  | _ => true
  end.

(** An integral number below [10^21] in magnitude: the numbers that
    [Number::toString] prints without a fraction or an exponent. *)
Definition small_intb (x : number) : bool :=
  match x with
  | NFin m e =>
      canonicalb x && (0 <=? e) && (Z.abs m * 10 ^ e <? 10 ^ 21)
  | _ => false
  end.

(** Decimal digits of a positive, most significant first. *)
Fixpoint uint_chars (d : uint) : list ascii :=
  match d with
  | Nil => []
  | D0 d => "0"%char :: uint_chars d
  | D1 d => "1"%char :: uint_chars d
  | D2 d => "2"%char :: uint_chars d
  | D3 d => "3"%char :: uint_chars d
  | D4 d => "4"%char :: uint_chars d
  | D5 d => "5"%char :: uint_chars d
  | D6 d => "6"%char :: uint_chars d
  | D7 d => "7"%char :: uint_chars d
  | D8 d => "8"%char :: uint_chars d
  | D9 d => "9"%char :: uint_chars d
  end.

Definition pos_chars (p : positive) : list ascii := uint_chars (Pos.to_uint p).

Definition digit_of_char (c : ascii) : option Z :=
  let n := Z.of_nat (nat_of_ascii c) - 48 in
  if (0 <=? n) && (n <=? 9) then Some n else None.

Definition is_digit (c : ascii) : bool :=
  match digit_of_char c with Some _ => true | None => false end.

Definition chars_val_from (acc : Z) (l : list ascii) : Z :=
  fold_left (fun a c => 10 * a + default 0 (digit_of_char c)) l acc.

Definition chars_val (l : list ascii) : Z := chars_val_from 0 l.

Definition zeros (n : nat) : list ascii := repeat "0"%char n.

Definition abs_chars (x : Z) : list ascii :=
  match Z.abs x with
  | Zpos p => pos_chars p
  | _ => ["0"%char]
  end.

(** [Number::toString(x)] (radix 10) for [x = s * 10^e], [s > 0], given the
    digits [ds] of [s]: with [k] the number of digits and [n = e + k], the
    four layouts of the ECMAScript algorithm. *)
Definition layout_chars (ds : list ascii) (e : Z) : list ascii :=
  let k := Z.of_nat (List.length ds) in
  let n := e + k in
  if (k <=? n) && (n <=? 21) then ds ++ zeros (Z.to_nat (n - k))
  else if (0 <? n) && (n <=? 21) then
    firstn (Z.to_nat n) ds ++ "."%char :: skipn (Z.to_nat n) ds
  else if (-6 <? n) && (n <=? 0) then
    "0"%char :: "."%char :: zeros (Z.to_nat (- n)) ++ ds
  else
    let x := n - 1 in
    let ex := "e"%char :: (if 0 <=? x then "+"%char else "-"%char) :: abs_chars x in
    match ds with
    | [d] => d :: ex
    | d :: rest => d :: "."%char :: rest ++ ex
    | [] => ex
    end.

Definition pos_to_chars (s : positive) (e : Z) : list ascii := layout_chars (pos_chars s) e.

Definition num_to_chars (x : number) : list ascii :=
  match x with
  | NFin Z0 _ => ["0"%char]
  | NFin (Zpos s) e => pos_to_chars s e
  | NFin (Zneg s) e => "-"%char :: pos_to_chars s e
  | NPosInf => list_ascii_of_string "Infinity"
  | NNegInf => list_ascii_of_string "-Infinity"
  | NNaN => list_ascii_of_string "NaN"
  end.

Definition num_ToString (x : number) : string :=
  string_of_list_ascii (num_to_chars x).

(** *** Parsing: [parseInt(s, 10)] and [parseFloat(s)]

    The parsed decimal is kept exact (rounding of a decimal string that is
    not the shortest form of a binary64, and overflow to Infinity, are not
    modelled: [Number::toString] never prints such strings). *)

Definition is_ws (c : ascii) : bool :=
  match nat_of_ascii c with
  | 9%nat | 10%nat | 11%nat | 12%nat | 13%nat | 32%nat => true
  | _ => false
  end.

Fixpoint trim_start (l : list ascii) : list ascii :=
  match l with
  | c :: r => if is_ws c then trim_start r else l
  | [] => []
  end.

Definition parse_sign (l : list ascii) : bool * list ascii :=
  match l with
  | c :: r =>
      if Ascii.eqb c "-" then (true, r)
      else if Ascii.eqb c "+" then (false, r)
      else (false, l)
  | [] => (false, [])
  end.

Fixpoint span_digits (l : list ascii) : list ascii * list ascii :=
  match l with
  | c :: r =>
      match digit_of_char c with
      | Some _ => let '(ds, rest) := span_digits r in (c :: ds, rest)
      | None => ([], l)
      end
  | [] => ([], [])
  end.

(** Leading ["0"]s of a reversed digit list: the trailing zeros. *)
Fixpoint strip_zeros (l : list ascii) : list ascii * nat :=
  match l with
  | c :: r =>
      if Ascii.eqb c "0" then let '(r', n) := strip_zeros r in (r', S n)
      else (l, O)
  | [] => ([], O)
  end.

Definition make_num (neg : bool) (mant : list ascii) (exp : Z) : number :=
  let '(rm, c) := strip_zeros (rev mant) in
  let v := chars_val (rev rm) in
  if v =? 0 then NFin 0 0 else NFin (if neg then - v else v) (exp + Z.of_nat c).

Definition parse_exp (l : list ascii) : Z :=
  match l with
  | c :: r =>
      if Ascii.eqb c "e" || Ascii.eqb c "E" then
        let '(neg, r') := parse_sign r in
        match span_digits r' with
        | ([], _) => 0
        | (ds, _) => if neg then - chars_val ds else chars_val ds
        end
      else 0
  | [] => 0
  end.

(** Digits, an optional fraction and an optional exponent; the longest such
    prefix counts. *)
Definition parse_decimal (neg : bool) (r : list ascii) : number :=
    let '(d1, r1) := span_digits r in
    let '(d2, r2) :=
      match r1 with
      | "."%char :: r1' => span_digits r1'
      | _ => ([], r1)
      end in
    match d1 ++ d2 with
    | [] => NNaN
    | _ => make_num neg (d1 ++ d2) (parse_exp r2 - Z.of_nat (List.length d2))
    end.

(** StrDecimalLiteral after the sign: [Infinity] or a decimal. *)
Definition parseFloat_body (neg : bool) (r : list ascii) : number :=
  if List.list_eq_dec ascii_dec (firstn 8 r) (list_ascii_of_string "Infinity")
  then (if neg then NNegInf else NPosInf)
  else parse_decimal neg r.

Definition parseFloat_chars (l : list ascii) : number :=
  let '(neg, r) := parse_sign (trim_start l) in parseFloat_body neg r.

Definition parseInt_chars (l : list ascii) : number :=
  let '(neg, r) := parse_sign (trim_start l) in
  match span_digits r with
  | ([], _) => NNaN
  | (ds, _) => make_num neg ds 0
  end.

(** What follows the digits in a layout of [Number::toString]: nothing or
    an exponent. *)
Definition exp_tail (r : list ascii) : Prop :=
  match r with [] => True | c :: _ => c = "e"%char end.

Definition parseFloat (s : string) : number := parseFloat_chars (list_ascii_of_string s).
Definition parseInt (s : string) : number := parseInt_chars (list_ascii_of_string s).

(** ** JavaScript values and plain objects

    A plain object is the list of its own enumerable properties in insertion
    order (keys are unique); [obj_set] keeps the position of an existing key
    and appends a new one, as property assignment does. *)

Inductive jsval : Type :=
| JUndef
| JNull
| JBool (b : bool)
| JNum (n : number)
| JStr (s : string)
| JObj (o : list (string * jsval)).

Abbreviation obj := (list (string * jsval)).

Inductive exn : Type :=
| TypeError
| Error (msg : string)
| ReplyError (code : string).

Inductive jsres (A : Type) : Type :=
| Ok (a : A)
| Throw (e : exn).
Arguments Ok {A} a.
Arguments Throw {A} e.

Definition jsres_bind {A B} (m : jsres A) (k : A -> jsres B) : jsres B :=
  match m with
  | Ok a => k a
  | Throw e => Throw e
  end.

Notation "x <-? m ;; k" := (jsres_bind m (fun x => k))
  (at level 100, m at next level, right associativity).

(** [ToString] as used by [String(v)], template literals and the client's
    serialisation of command arguments. *)
Definition js_ToString (v : jsval) : string :=
  match v with
  | JUndef => "undefined"
  | JNull => "null"
  | JBool true => "true"
  | JBool false => "false"
  | JNum n => num_ToString n
  | JStr s => s
  | JObj _ => "[object Object]"
  end.

Fixpoint obj_get (o : obj) (k : string) : option jsval :=
  match o with
  | (k', v) :: r => if String.eqb k k' then Some v else obj_get r k
  | [] => None
  end.

Definition hasOwnProperty (o : obj) (k : string) : bool :=
  match obj_get o k with Some _ => true | None => false end.

(** [o.k] on an object. *)
Definition get_field (o : obj) (k : string) : jsval := default JUndef (obj_get o k).

(** [v.k] on any value: [undefined] and [null] throw a TypeError. *)
Definition prop (v : jsval) (k : string) : jsres jsval :=
  match v with
  | JUndef | JNull => Throw TypeError
  | JObj o => Ok (get_field o k)
  | _ => Ok JUndef
  end.

Fixpoint obj_set (o : obj) (k : string) (v : jsval) : obj :=
  match o with
  | (k', v') :: r => if String.eqb k k' then (k, v) :: r else (k', v') :: obj_set r k v
  | [] => [(k, v)]
  end.

Definition obj_del (o : obj) (k : string) : obj :=
  List.filter (fun p => negb (String.eqb (fst p) k)) o.

(** ** The site record codec *)

(** [remap(siteHash)]: the decoder. *)
Definition remap (siteHash : obj) : obj :=
  let r := siteHash in
  let r := obj_set r "id" (JNum (parseInt (js_ToString (get_field siteHash "id")))) in
  let r := obj_set r "panels" (JNum (parseInt (js_ToString (get_field siteHash "panels")))) in
  let r := obj_set r "capacity"
             (JNum (parseFloat (js_ToString (get_field siteHash "capacity")))) in
  if hasOwnProperty siteHash "lat" && hasOwnProperty siteHash "lng" then
    let r := obj_set r "coordinate"
               (JObj [("lat", JNum (parseFloat (js_ToString (get_field siteHash "lat"))));
                      ("lng", JNum (parseFloat (js_ToString (get_field siteHash "lng"))))]) in
    obj_del (obj_del r "lat") "lng"
  else r.

(** [flatten(site)]: the encoder. *)
Definition flatten (site : obj) : jsres obj :=
  if hasOwnProperty site "coordinate" then
    lat <-? prop (get_field site "coordinate") "lat" ;;
    let r := obj_set site "lat" lat in
    lng <-? prop (get_field r "coordinate") "lng" ;;
    let r := obj_set r "lng" lng in
    Ok (obj_del r "coordinate")
  else Ok site.

(** The client sends every field value as [String(value)], and HGETALL gives
    them back as strings. *)
Definition serialize (o : obj) : list (string * string) :=
  map (fun p => (fst p, js_ToString (snd p))) o.

Definition hash_to_obj (h : list (string * string)) : obj :=
  map (fun p => (fst p, JStr (snd p))) h.

(** A site written by [insert] and read back by [findById]: [flatten], the
    string serialisation of the hash, then [remap]. *)
Definition site_roundtrip (site : obj) : jsres obj :=
  f <-? flatten site ;; Ok (remap (hash_to_obj (serialize f))).

Definition sample_site : obj :=
  [("id", JNum (NFin 7 0)); ("panels", JNum (NFin 12 0)); ("capacity", JNum (NFin 45 (-1)));
   ("coordinate", JObj [("lat", JNum (NFin 3775 (-2))); ("lng", JNum (NFin (-12241) (-2)))])].

(** [sample_site] with the id [1e21], an integer that [Number::toString]
    prints in exponent notation. *)
Definition big_id_site : obj :=
  obj_set sample_site "id" (JNum (NFin 1 21)).

(** A site without a coordinate. *)
Definition no_coordinate_site : obj :=
  [("id", JNum (NFin 1 0)); ("panels", JNum (NFin 1 0)); ("capacity", JNum (NFin 1 0))].


(** ** The store

    The keyspace maps a key to a hash (fields in insertion order) or to a
    sorted set; [ttl] holds the expirations, in seconds.  A sorted set is the
    list of its members ordered by (score, member), the order Redis keeps; a
    score is a finite double, written as the rational it denotes. *)

Inductive rval : Type :=
| RHash (h : list (string * string))
| RZSet (z : list (string * Q)).

Record store : Type := mkStore { kv : gmap string rval; ttl : gmap string nat }.

Definition zlt (a b : string * Q) : bool :=
  match Qcompare (snd a) (snd b) with
  | Lt => true
  | Gt => false
  | Eq => String.ltb (fst a) (fst b)
  end.

Fixpoint zs_ins (p : string * Q) (z : list (string * Q)) : list (string * Q) :=
  match z with
  | [] => [p]
  | q :: r => if zlt p q then p :: z else q :: zs_ins p r
  end.

Definition zs_remove (m : string) (z : list (string * Q)) : list (string * Q) :=
  List.filter (fun q => negb (String.eqb (fst q) m)) z.

(** ZADD of one member: an existing member is moved to its new score. *)
Definition zs_add (m : string) (sc : Q) (z : list (string * Q)) : list (string * Q) :=
  zs_ins (m, sc) (zs_remove m z).

Fixpoint zs_score (z : list (string * Q)) (m : string) : option Q :=
  match z with
  | [] => None
  | (m', sc) :: r => if String.eqb m m' then Some sc else zs_score r m
  end.

Definition zs_of_list (l : list (string * Q)) : list (string * Q) :=
  fold_left (fun z p => zs_add (fst p) (snd p) z) l [].

Fixpoint hash_set (h : list (string * string)) (f v : string) : list (string * string) :=
  match h with
  | (f', v') :: r => if String.eqb f f' then (f, v) :: r else (f', v') :: hash_set r f v
  | [] => [(f, v)]
  end.

Definition hash_merge (h fields : list (string * string)) : list (string * string) :=
  fold_left (fun h p => hash_set h (fst p) (snd p)) fields h.

(** Units of GEORADIUS, in meters. *)
Definition unit_factor (u : string) : option Q :=
  if String.eqb u "m" then Some 1%Q
  else if String.eqb u "km" then Some 1000%Q
  else if String.eqb u "ft" then Some (3048 # 10000)
  else if String.eqb u "mi" then Some (160934 # 100)
  else None.

Inductive reply : Type :=
| ROk
| RInt (n : Z)
| RList (l : list string)
| RHashReply (h : list (string * string)).

(** Commands as the client sends them: every argument is a string. *)
Inductive cmd : Type :=
| HMSET (k : string) (fields : list (string * string))
| HGETALL (k : string)
| GEOADD (k lng lat member : string)
| ZRANGE_ALL (k : string)
| GEORADIUS (k lng lat radius unit : string) (dest : option string)
| ZINTERSTORE (dest : string) (keys : list string) (weights : list Q)
| EXPIRE (k : string) (secs : nat)
| ZRANGEBYSCORE_INF (k : string) (min : Q).

Definition wrongtype {A} : jsres A := Throw (ReplyError "WRONGTYPE").

(** Writing into an existing value keeps its TTL; replacing a key (the
    destination of a STORE) drops it, as Redis' [setKey] does. *)
Definition write_key (s : store) (k : string) (v : rval) : store :=
  mkStore (<[k := v]> (kv s)) (ttl s).
Definition set_key (s : store) (k : string) (v : rval) : store :=
  mkStore (<[k := v]> (kv s)) (delete k (ttl s)).
Definition del_key (s : store) (k : string) : store :=
  mkStore (delete k (kv s)) (delete k (ttl s)).

Definition get_zset (s : store) (k : string) : jsres (list (string * Q)) :=
  match kv s !! k with
  | None => Ok []
  | Some (RZSet z) => Ok z
  | Some _ => wrongtype
  end.

(** The weighted intersection (aggregate SUM) of two sorted sets. *)
Definition zinter2 (w1 w2 : Q) (z1 z2 : list (string * Q)) : list (string * Q) :=
  zs_of_list
    (flat_map (fun p => match zs_score z2 (fst p) with
                        | Some s2 => [(fst p, w1 * snd p + w2 * s2)%Q]
                        | None => []
                        end) z1).

(** A destination of a STORE: an empty result deletes it. *)
Definition store_result (s : store) (d : string) (z : list (string * Q)) : store * jsres reply :=
  match z with
  | [] => (del_key s d, Ok (RInt 0))
  | _ => (set_key s d (RZSet z), Ok (RInt (Z.of_nat (List.length z))))
  end.

Section Client.

(** The geo primitives of the store: GEOADD's parsing, range check and
    geohash of a (longitude, latitude) pair; GEORADIUS's check of its centre
    and radius; and whether the member stored with a geohash score lies
    within the radius (times the unit's factor in meters) of the centre. *)
Variable geoencode : string -> string -> option Q.
Variable geo_args_ok : string -> string -> string -> bool.
Variable geo_within : Q -> string -> string -> string -> Q -> bool.

Definition exec_cmd (s : store) (c : cmd) : store * jsres reply :=
  match c with
  | HMSET k fields =>
      match fields with
      | [] => (s, Throw (ReplyError "ERR"))
      | _ =>
          match kv s !! k with
          | None => (write_key s k (RHash (hash_merge [] fields)), Ok ROk)
          | Some (RHash h) => (write_key s k (RHash (hash_merge h fields)), Ok ROk)
          | Some _ => (s, wrongtype)
          end
      end
  | HGETALL k =>
      match kv s !! k with
      | None => (s, Ok (RHashReply []))
      | Some (RHash h) => (s, Ok (RHashReply h))
      | Some _ => (s, wrongtype)
      end
  | GEOADD k lng lat m =>
      match geoencode lng lat with
      | None => (s, Throw (ReplyError "ERR"))
      | Some sc =>
          match get_zset s k with
          | Ok z =>
              (write_key s k (RZSet (zs_add m sc z)),
               Ok (RInt (if zs_score z m then 0 else 1)))
          | Throw e => (s, Throw e)
          end
      end
  | ZRANGE_ALL k =>
      match get_zset s k with
      | Ok z => (s, Ok (RList (map fst z)))
      | Throw e => (s, Throw e)
      end
  | GEORADIUS k lng lat radius u dest =>
      match kv s !! k with
      | None => (s, Ok (RList []))
      | Some (RHash _) => (s, wrongtype)
      | Some (RZSet z) =>
          match unit_factor u with
          | None => (s, Throw (ReplyError "ERR"))
          | Some f =>
              if geo_args_ok lng lat radius then
                (* the members within the radius; the store replies them in
                   an order of its own, the model in the set's order, and no
                   property below depends on that order *)
                let found := List.filter (fun p => geo_within (snd p) lng lat radius f) z in
                match dest with
                | None => (s, Ok (RList (map fst found)))
                | Some d => store_result s d found
                end
              else (s, Throw (ReplyError "ERR"))
          end
      end
  | ZINTERSTORE d keys weights =>
      match keys, weights with
      | [k1; k2], [w1; w2] =>
          match get_zset s k1, get_zset s k2 with
          | Ok z1, Ok z2 => store_result s d (zinter2 w1 w2 z1 z2)
          | Throw e, _ => (s, Throw e)
          | _, Throw e => (s, Throw e)
          end
      | _, _ => (s, Throw (ReplyError "ERR"))
      end
  | EXPIRE k secs =>
      match kv s !! k with
      | None => (s, Ok (RInt 0))
      | Some _ => (mkStore (kv s) (<[k := secs]> (ttl s)), Ok (RInt 1))
      end
  | ZRANGEBYSCORE_INF k min =>
      match get_zset s k with
      | Ok z => (s, Ok (RList (map fst (List.filter (fun p => Qle_bool min (snd p)) z))))
      | Throw e => (s, Throw e)
      end
  end.

(** ** The DAO's monad

    A call runs against the store and the key generator's record of the
    temporary names it has handed out; it returns a value or throws (a
    rejected promise), keeping the writes done before the throw. *)

Record world : Type := mkWorld { db : store; tmp_used : gset string }.

Definition M (A : Type) : Type := world -> world * jsres A.

Definition ret {A} (a : A) : M A := fun w => (w, Ok a).
Definition throw {A} (e : exn) : M A := fun w => (w, Throw e).
Definition bind {A B} (m : M A) (k : A -> M B) : M B :=
  fun w => match m w with
           | (w', Ok a) => k a w'
           | (w', Throw e) => (w', Throw e)
           end.
Definition lift {A} (r : jsres A) : M A := fun w => (w, r).

Notation "x <- m ;; k" := (bind m (fun x => k))
  (at level 100, m at next level, right associativity).

(** [await client.<cmd>Async(...)]: a command reply, or the rejection. *)
Definition send (c : cmd) : M reply :=
  fun w => let '(s', r) := exec_cmd (db w) c in
           (mkWorld s' (tmp_used w), r).

(** [await client.batch() ... .execAsync()]: the commands run in order, one
    round trip; a failing command leaves an error in its slot of the result
    array, the batch itself resolves. *)
Fixpoint exec_batch (s : store) (cs : list cmd) : store * list (jsres reply) :=
  match cs with
  | [] => (s, [])
  | c :: r =>
      let '(s1, x) := exec_cmd s c in
      let '(s2, xs) := exec_batch s1 r in
      (s2, x :: xs)
  end.

Definition batch (cs : list cmd) : M (list (jsres reply)) :=
  fun w => let '(s', rs) := exec_batch (db w) cs in (mkWorld s' (tmp_used w), Ok rs).

(** The client turns an empty HGETALL reply into [null]. *)
Definition hgetall_value (r : reply) : option obj :=
  match r with
  | RHashReply [] => None
  | RHashReply h => Some (hash_to_obj h)
  | _ => None
  end.

Definition hgetallAsync (k : string) : M (option obj) :=
  r <- send (HGETALL k) ;; ret (hgetall_value r).

Definition list_reply (r : reply) : list string :=
  match r with
  | RList l => l
  | _ => []
  end.

(** ** The key generator (redis-key-generator)

    Modelled from the spec: the key namespace provider is not among the
    sources; it prefixes every key, derives the site hash key from the id by
    string interpolation, and hands out a name not in use on every call of
    [getTemporaryKey]. *)
Definition key_prefix : string := "ru102js".

Definition getSiteHashKey (id : jsval) : string :=
  key_prefix +:+ ":sites:info:" +:+ js_ToString id.
Definition getSiteGeoKey : string := key_prefix +:+ ":sites:geo".
Definition getCapacityRankingKey : string := key_prefix +:+ ":sites:capacity:ranking".

Definition getTemporaryKey : M string :=
  fun w => let k := fresh_string_of_set (key_prefix +:+ ":tmp:")
                      (dom (kv (db w)) ∪ tmp_used w) in
           (mkWorld (db w) ({[k]} ∪ tmp_used w), Ok k).

(** ** The DAO (site_geo.dao) *)

(** Minimum score for a site to have excess capacity.  The client sends
    ["0.2"]; the store compares binary64 scores with the nearest double to
    1/5, which selects exactly the doubles [>= 1/5]. *)
Definition capacityThreshold : Q := 1 # 5.

(** [String.prototype.toLowerCase] on ASCII text. *)
Definition ascii_lower (c : ascii) : ascii :=
  let n := nat_of_ascii c in
  if (65 <=? n)%nat && (n <=? 90)%nat then ascii_of_nat (n + 32) else c.

Fixpoint toLowerCase (s : string) : string :=
  match s with
  | EmptyString => EmptyString
  | String c r => String (ascii_lower c) (toLowerCase r)
  end.

Definition insert (site : obj) : M string :=
  let siteHashKey := getSiteHashKey (get_field site "id") in
  f <- lift (flatten site) ;;
  _ <- send (HMSET siteHashKey (serialize f)) ;;
  if negb (hasOwnProperty site "coordinate") then
    throw (Error "Coordinate required for site geo insert!")
  else
    lng <- lift (prop (get_field site "coordinate") "lng") ;;
    lat <- lift (prop (get_field site "coordinate") "lat") ;;
    _ <- send (GEOADD getSiteGeoKey (js_ToString lng) (js_ToString lat)
                      (js_ToString (get_field site "id"))) ;;
    ret siteHashKey.

Definition findById (id : jsval) : M (option obj) :=
  let siteKey := getSiteHashKey id in
  siteHash <- hgetallAsync siteKey ;;
  match siteHash with
  | None => ret None
  | Some h => ret (Some (remap h))
  end.

(** The enumerable own properties of the client's reply error, as an object
    the result loop may receive from a batch. *)
Definition error_obj (e : exn) : obj :=
  match e with
  | ReplyError code => [("code", JStr code)]
  | _ => []
  end.

(** The result loop of findAll: [if (siteHash) sites.push(remap(siteHash))]. *)
Fixpoint sites_of_results (rs : list (jsres reply)) : list obj :=
  match rs with
  | [] => []
  | Ok r :: rest =>
      match hgetall_value r with
      | Some h => remap h :: sites_of_results rest
      | None => sites_of_results rest
      end
  | Throw e :: rest => remap (error_obj e) :: sites_of_results rest
  end.

Definition findAll : M (list obj) :=
  r <- send (ZRANGE_ALL getSiteGeoKey) ;;
  let siteIds := list_reply r in
  results <- batch (map (fun siteId => HGETALL (getSiteHashKey (JStr siteId))) siteIds) ;;
  ret (sites_of_results results).

(** The sequential lookups of findByGeo and findByGeoWithExcessCapacity. *)
Fixpoint lookup_sites (siteIds : list string) : M (list obj) :=
  match siteIds with
  | [] => ret []
  | siteId :: rest =>
      siteHash <- hgetallAsync (getSiteHashKey (JStr siteId)) ;;
      sites <- lookup_sites rest ;;
      ret (match siteHash with
           | Some h => remap h :: sites
           | None => sites
           end)
  end.

Definition findByGeo (lat lng radius : jsval) (radiusUnit : string) : M (list obj) :=
  r <- send (GEORADIUS getSiteGeoKey (js_ToString lng) (js_ToString lat)
                       (js_ToString radius) (toLowerCase radiusUnit) None) ;;
  lookup_sites (list_reply r).

Definition findByGeoWithExcessCapacity (lat lng radius : jsval) (radiusUnit : string)
    : M (list obj) :=
  sitesInRadiusSortedSetKey <- getTemporaryKey ;;
  sitesInRadiusCapacitySortedSetKey <- getTemporaryKey ;;
  _ <- batch [GEORADIUS getSiteGeoKey (js_ToString lng) (js_ToString lat)
                        (js_ToString radius) (toLowerCase radiusUnit)
                        (Some sitesInRadiusSortedSetKey);
              ZINTERSTORE sitesInRadiusCapacitySortedSetKey
                          [sitesInRadiusSortedSetKey; getCapacityRankingKey] [0%Q; 1%Q];
              EXPIRE sitesInRadiusSortedSetKey 30;
              EXPIRE sitesInRadiusCapacitySortedSetKey 30] ;;
  r <- send (ZRANGEBYSCORE_INF sitesInRadiusCapacitySortedSetKey capacityThreshold) ;;
  lookup_sites (list_reply r).

Definition empty_world : world := mkWorld (mkStore ∅ ∅) ∅.


(** A one-dimensional stand-in for the geo primitives, for concrete runs: a
    member's score is its longitude, and it lies within the radius when its
    longitude is. *)
Definition numQ (x : number) : Q :=
  match x with
  | NFin m e => if 0 <=? e then inject_Z (m * 10 ^ e) else m # Z.to_pos (10 ^ (- e))
  | _ => 0
  end.

Definition line_geoencode (lng lat : string) : option Q := Some (numQ (parseFloat lng)).
Definition line_geo_args_ok (lng lat radius : string) : bool := true.
Definition line_geo_within (sc : Q) (lng lat radius : string) (f : Q) : bool :=
  Qle_bool (Qabs (sc - numQ (parseFloat lng))) (numQ (parseFloat radius) * f).

(** [logger.stream.write] of the logger utility: the message it passes to
    [logger.info] (a string of one-byte characters). *)
Definition logger_stream_write (message : string) : string :=
  if Nat.ltb 0 (String.length message)
  then String.substring 0 (String.length message - 1) message
  else message.

(** A store with one site, its geo entry and its capacity score. *)
Definition c1_world : world :=
  mkWorld (mkStore
    (<[getSiteGeoKey := RZSet [("7", 2%Q)]]>
     (<[getSiteHashKey (JStr "7") := RHash [("id", "7")]]>
      (<[getCapacityRankingKey := RZSet [("7", 1 # 2)]]> ∅))) ∅) ∅.

(** Sites inserted one after the other, as a caller does with
    [for (const site of sites) await insert(site)]. *)
Fixpoint insert_each (sites : list obj) : M (list string) :=
  match sites with
  | [] => ret []
  | site :: rest =>
      k <- insert site ;;
      ks <- insert_each rest ;;
      ret (k :: ks)
  end.

(** What the store holds after the sites [dn] were inserted: the geo key's
    members are their ids, the only other keys are their hash keys, and each
    hash key holds the serialised flattened site. *)
Definition sites_stored (dn : list obj) (w : world) : Prop :=
  (exists z, get_zset (db w) getSiteGeoKey = Ok z /\
     Permutation (map fst z) (map (fun site => js_ToString (get_field site "id")) dn)) /\
  (forall k r, kv (db w) !! k = Some r ->
     k = getSiteGeoKey \/ exists site, In site dn /\ k = getSiteHashKey (get_field site "id")) /\
  (forall site, In site dn -> exists fl,
     flatten site = Ok fl /\ serialize fl <> [] /\
     kv (db w) !! getSiteHashKey (get_field site "id") = Some (RHash (serialize fl))).

(** [sample_site] with another id and coordinate. *)
Definition sample_site_8 : obj :=
  [("id", JNum (NFin 8 0)); ("panels", JNum (NFin 3 0)); ("capacity", JNum (NFin 1 0));
   ("coordinate", JObj [("lat", JNum (NFin 1 0)); ("lng", JNum (NFin 2 0))])].

(** * Properties *)

(** ** Sample evaluations *)

Example num_ToString_1e21 : num_ToString (NFin 1 21) = "1e+21"%string.
Proof. reflexivity. Qed.
Example num_ToString_frac : num_ToString (NFin (-25) (-1)) = "-2.5"%string.
Proof. reflexivity. Qed.
Example num_ToString_small : num_ToString (NFin 123 (-9)) = "1.23e-7"%string.
Proof. reflexivity. Qed.
Example num_ToString_micro : num_ToString (NFin 1 (-6)) = "0.000001"%string.
Proof. reflexivity. Qed.
Example num_ToString_int : num_ToString (NFin 12 3) = "12000"%string.
Proof. reflexivity. Qed.
Example parseInt_exp : parseInt "1e+21" = NFin 1 0.
Proof. reflexivity. Qed.
Example parseFloat_exp : parseFloat "1.23e-7" = NFin 123 (-9).
Proof. reflexivity. Qed.
Example parseFloat_int : parseFloat "12000" = NFin 12 3.
Proof. reflexivity. Qed.

Example sample_roundtrip :
  (f <-? flatten sample_site ;; Ok (remap (hash_to_obj (serialize f))))
  = Ok [("id", JNum (NFin 7 0)); ("panels", JNum (NFin 12 0));
        ("capacity", JNum (NFin 45 (-1)));
        ("coordinate", JObj [("lat", JNum (NFin 3775 (-2))); ("lng", JNum (NFin (-12241) (-2)))])].
Proof. reflexivity. Qed.


(** ** Decimal digits *)

Lemma digit_of_char_props c d :
  digit_of_char c = Some d ->
  0 <= d <= 9 /\ is_ws c = false /\ Ascii.eqb c "-" = false /\
  Ascii.eqb c "+" = false /\ Ascii.eqb c "." = false /\ Ascii.eqb c "e" = false /\
  Ascii.eqb c "E" = false /\ Ascii.eqb c "I" = false /\ (Ascii.eqb c "0" = true <-> d = 0).
Proof.
  destruct c as [[] [] [] [] [] [] [] []]; cbn; intros H; try discriminate;
    injection H as <-; repeat split; try lia; try discriminate; reflexivity.
Qed.

Lemma is_digit_some c : is_digit c = true -> exists d, digit_of_char c = Some d.
Proof. unfold is_digit. destruct (digit_of_char c); [eauto | discriminate]. Qed.

Lemma chars_val_from_shift a l :
  chars_val_from a l = a * 10 ^ Z.of_nat (List.length l) + chars_val l.
Proof.
  unfold chars_val. revert a. induction l as [|c l IH]; intros a; cbn -[Z.pow].
  - lia.
  - fold (chars_val_from (10 * a + default 0 (digit_of_char c)) l).
    fold (chars_val_from (10 * 0 + default 0 (digit_of_char c)) l).
    rewrite (IH (10 * a + _)), (IH (10 * 0 + _)).
    rewrite Nat2Z.inj_succ, Z.pow_succ_r by lia. ring.
Qed.

Lemma chars_val_app l1 l2 :
  chars_val (l1 ++ l2) = chars_val l1 * 10 ^ Z.of_nat (List.length l2) + chars_val l2.
Proof.
  unfold chars_val at 1, chars_val_from. rewrite fold_left_app.
  fold (chars_val_from (chars_val l1) l2). apply chars_val_from_shift.
Qed.

Lemma chars_val_cons c l :
  chars_val (c :: l) =
  default 0 (digit_of_char c) * 10 ^ Z.of_nat (List.length l) + chars_val l.
Proof.
  change (c :: l) with ([c] ++ l). rewrite chars_val_app. reflexivity.
Qed.

Lemma chars_val_zeros n : chars_val (zeros n) = 0.
Proof.
  induction n as [|n IH]; [reflexivity|].
  change (zeros (S n)) with ("0"%char :: zeros n). rewrite chars_val_cons, IH. reflexivity.
Qed.

Lemma chars_val_nonneg l : forallb is_digit l = true -> 0 <= chars_val l.
Proof.
  induction l as [|c l IH]; cbn [forallb]; [easy|]. intros H.
  apply andb_true_iff in H as [Hc Hl].
  destruct (is_digit_some c Hc) as [d Hd].
  rewrite chars_val_cons, Hd. cbn [default from_option id].
  pose proof (digit_of_char_props c d Hd) as [? _].
  specialize (IH Hl). pose proof (Z.pow_nonneg 10 (Z.of_nat (List.length l)) ltac:(lia)).
  nia.
Qed.

Lemma chars_val_lt l : forallb is_digit l = true -> chars_val l < 10 ^ Z.of_nat (List.length l).
Proof.
  induction l as [|c l IH]; cbn [forallb]; [reflexivity|]. intros H.
  apply andb_true_iff in H as [Hc Hl].
  destruct (is_digit_some c Hc) as [d Hd].
  rewrite chars_val_cons, Hd. cbn [default from_option id].
  pose proof (digit_of_char_props c d Hd) as [? _].
  specialize (IH Hl). cbn [List.length]. rewrite Nat2Z.inj_succ, Z.pow_succ_r by lia. nia.
Qed.

Lemma uint_chars_digits u : forallb is_digit (uint_chars u) = true.
Proof. induction u; cbn; auto. Qed.

Lemma uint_chars_val_acc u (acc : positive) :
  Zpos (Pos.of_uint_acc u acc) = chars_val_from (Zpos acc) (uint_chars u).
Proof.
  revert acc. induction u as [|u IH|u IH|u IH|u IH|u IH|u IH|u IH|u IH|u IH|u IH];
    intros acc; cbn [Pos.of_uint_acc uint_chars]; [reflexivity| ..];
    rewrite IH; unfold chars_val_from; cbn [fold_left];
    match goal with
    | |- context [digit_of_char ?c] =>
        let v := eval vm_compute in (digit_of_char c) in change (digit_of_char c) with v
    end;
    cbn [default from_option id]; f_equal; lia.
Qed.

Lemma uint_chars_val u : Z.of_N (Pos.of_uint u) = chars_val (uint_chars u).
Proof.
  induction u as [|u IH|u IH|u IH|u IH|u IH|u IH|u IH|u IH|u IH|u IH];
    cbn [Pos.of_uint uint_chars];
    [reflexivity | rewrite IH; unfold chars_val, chars_val_from; reflexivity | ..].
  all: cbn [Z.of_N]; rewrite uint_chars_val_acc; reflexivity.
Qed.

Lemma pos_chars_val p : chars_val (pos_chars p) = Zpos p.
Proof.
  unfold pos_chars. rewrite <- uint_chars_val, DecimalPos.Unsigned.of_to. reflexivity.
Qed.

Lemma pos_chars_digits p : forallb is_digit (pos_chars p) = true.
Proof. apply uint_chars_digits. Qed.

Lemma pos_chars_head p :
  exists c rest, pos_chars p = c :: rest /\ Ascii.eqb c "0" = false.
Proof.
  unfold pos_chars.
  assert (Hu : Pos.to_uint p = unorm (Pos.to_uint p)).
  { rewrite <- DecimalPos.Unsigned.to_of, DecimalPos.Unsigned.of_to. reflexivity. }
  pose proof (DecimalPos.Unsigned.to_uint_nonzero p) as Hz.
  pose proof (DecimalFacts.nzhead_nonzero (Pos.to_uint p)) as Hnz.
  unfold unorm in Hu. destruct (nzhead (Pos.to_uint p)) eqn:E;
    [congruence | exfalso; eapply Hnz; reflexivity | ..];
    rewrite Hu; cbn; eauto.
Qed.

Lemma pos_chars_nonempty p : pos_chars p <> [].
Proof. destruct (pos_chars_head p) as (c & rest & -> & _). discriminate. Qed.

(** The lowest digit of [s] is its last character. *)
Lemma pos_chars_last p :
  Z.rem (Zpos p) 10 <> 0 -> Ascii.eqb (List.last (pos_chars p) "0"%char) "0" = false.
Proof.
  intros Hrem.
  destruct (exists_last (pos_chars_nonempty p)) as (init & c & E).
  rewrite E, last_last.
  pose proof (pos_chars_digits p) as Hd. rewrite E, forallb_app in Hd.
  apply andb_true_iff in Hd as [Hi Hc]. cbn in Hc. rewrite andb_true_r in Hc.
  destruct (is_digit_some c Hc) as [d Hcd].
  destruct (digit_of_char_props c d Hcd) as (Hd09 & _ & _ & _ & _ & _ & _ & _ & H0).
  pose proof (pos_chars_val p) as V. rewrite E, chars_val_app, chars_val_cons, Hcd in V.
  cbn [List.length default from_option id Z.of_nat Z.pow Z.pow_pos Pos.iter] in V.
  pose proof (chars_val_nonneg init Hi).
  destruct (Ascii.eqb c "0") eqn:Ec; [|reflexivity].
  exfalso. apply Hrem. specialize (proj1 H0 eq_refl) as ->.
  assert (Hp : Zpos p = chars_val init * 10) by (rewrite <- V; cbn; lia).
  rewrite Hp. apply Z.rem_mul. lia.
Qed.

(** The highest digit is not 0: [s] has exactly [k] digits. *)
Lemma pos_chars_lower p :
  10 ^ (Z.of_nat (List.length (pos_chars p)) - 1) <= Zpos p.
Proof.
  destruct (pos_chars_head p) as (c & rest & E & Hc).
  pose proof (pos_chars_val p) as V. rewrite E, chars_val_cons in V.
  pose proof (pos_chars_digits p) as Hd. rewrite E in Hd. cbn in Hd.
  apply andb_true_iff in Hd as [Hc' Hr].
  destruct (is_digit_some c Hc') as [d Hcd]. rewrite Hcd in V.
  destruct (digit_of_char_props c d Hcd) as (Hd09 & _ & _ & _ & _ & _ & _ & _ & H0).
  assert (d <> 0) by (intros ->; rewrite (proj2 H0 eq_refl) in Hc; discriminate).
  pose proof (chars_val_nonneg rest Hr).
  rewrite E. cbn [List.length].
  replace (Z.of_nat (S (List.length rest)) - 1) with (Z.of_nat (List.length rest)) by lia.
  cbn [default from_option id] in V.
  pose proof (Z.pow_nonneg 10 (Z.of_nat (List.length rest)) ltac:(lia)). nia.
Qed.

Lemma span_digits_app ds rest :
  forallb is_digit ds = true ->
  match rest with [] => True | c :: _ => is_digit c = false end ->
  span_digits (ds ++ rest) = (ds, rest).
Proof.
  intros Hds Hrest. induction ds as [|c ds IH]; cbn [app].
  - destruct rest as [|c r]; [reflexivity|]. cbn. unfold is_digit in Hrest.
    destruct (digit_of_char c); [discriminate | reflexivity].
  - cbn in Hds. apply andb_true_iff in Hds as [Hc Hds].
    destruct (is_digit_some c Hc) as [d Hd]. cbn. rewrite Hd, IH by exact Hds. reflexivity.
Qed.

Lemma span_digits_all ds : forallb is_digit ds = true -> span_digits ds = (ds, []).
Proof. intros H. rewrite <- (app_nil_r ds) at 1. apply span_digits_app; auto. Qed.

Lemma strip_zeros_zeros j l :
  strip_zeros (zeros j ++ l) = let '(l', n) := strip_zeros l in (l', (j + n)%nat).
Proof.
  induction j as [|j IH]; cbn [zeros repeat app].
  - destruct (strip_zeros l). reflexivity.
  - change (repeat "0"%char j) with (zeros j). cbn [strip_zeros]. rewrite IH.
    destruct (strip_zeros l). reflexivity.
Qed.

Lemma strip_zeros_nonzero c l : Ascii.eqb c "0" = false -> strip_zeros (c :: l) = (c :: l, O).
Proof. intros H. cbn. rewrite H. reflexivity. Qed.

Lemma rev_zeros j : rev (zeros j) = zeros j.
Proof. apply rev_repeat. Qed.

(** The digit strings that [Number::toString] produces are read back by
    [make_num]: leading zeros add nothing, trailing zeros go to the
    exponent. *)
Lemma make_num_digits neg pre ds j x :
  forallb is_digit pre = true -> chars_val pre = 0 ->
  ds <> [] -> Ascii.eqb (List.last ds "0"%char) "0" = false -> 0 < chars_val ds ->
  make_num neg (pre ++ ds ++ zeros j) x =
  NFin (if neg then - chars_val ds else chars_val ds) (x + Z.of_nat j).
Proof.
  intros Hpre Hpre0 Hne Hlast Hpos. unfold make_num.
  rewrite !rev_app_distr, rev_zeros, <- app_assoc, strip_zeros_zeros.
  destruct (exists_last Hne) as (init & c & E). rewrite E in Hlast |- *.
  rewrite last_last in Hlast. rewrite rev_app_distr. cbn [rev app].
  rewrite strip_zeros_nonzero by exact Hlast.
  rewrite Nat.add_0_r.
  replace (rev (c :: rev init ++ rev pre)) with (pre ++ ds)
    by (rewrite E; cbn [rev]; rewrite rev_app_distr, !rev_involutive, <- app_assoc;
        reflexivity).
  rewrite chars_val_app, Hpre0, Z.mul_0_l, Z.add_0_l.
  destruct (chars_val ds =? 0) eqn:Z0; [apply Z.eqb_eq in Z0; lia|].
  rewrite E. reflexivity.
Qed.

Lemma parseFloat_body_digit neg c r :
  is_digit c = true -> parseFloat_body neg (c :: r) = parse_decimal neg (c :: r).
Proof.
  intros Hc. unfold parseFloat_body.
  destruct (List.list_eq_dec ascii_dec _ _) as [E|_]; [|reflexivity].
  exfalso. cbn in E. injection E as Ec _. subst c.
  destruct (is_digit_some _ Hc) as [d Hd]. discriminate Hd.
Qed.

Lemma match_list_nonempty {A B : Type} (l : list A) (a b : B) :
  l <> [] -> match l with [] => a | _ :: _ => b end = b.
Proof. destruct l; congruence. Qed.

Lemma zeros_digits j : forallb is_digit (zeros j) = true.
Proof. induction j; cbn; auto. Qed.

Lemma chars_val_zeros_cons j : chars_val ("0"%char :: zeros j) = 0.
Proof. apply (chars_val_zeros (S j)). Qed.

Lemma parse_exp_layout x :
  x <> 0 ->
  parse_exp ("e"%char :: (if 0 <=? x then "+"%char else "-"%char) :: abs_chars x) = x.
Proof.
  intros Hx. unfold abs_chars.
  destruct (Z.abs x) as [|p|p] eqn:Ea; [lia| |lia].
  pose proof (pos_chars_nonempty p) as Hne.
  cbn [parse_exp Ascii.eqb orb Bool.eqb].
  destruct (0 <=? x) eqn:Ex; cbn [parse_sign Ascii.eqb Bool.eqb];
    rewrite span_digits_all by apply pos_chars_digits;
    destruct (pos_chars p) as [|c r] eqn:Ep; try congruence;
    rewrite <- Ep, pos_chars_val; apply Z.leb_le in Ex || apply Z.leb_gt in Ex; lia.
Qed.

Lemma forallb_firstn_skipn (l : list ascii) n :
  forallb is_digit l = true ->
  forallb is_digit (firstn n l) = true /\ forallb is_digit (skipn n l) = true.
Proof.
  intros H. rewrite <- (firstn_skipn n l), forallb_app in H.
  apply andb_true_iff in H. exact H.
Qed.


Lemma exp_tail_nondigit r :
  exp_tail r -> match r with [] => True | c :: _ => is_digit c = false end.
Proof. destruct r; cbn; [auto | intros ->; reflexivity]. Qed.

Lemma parse_decimal_int neg d1 r :
  forallb is_digit d1 = true -> exp_tail r -> d1 <> [] ->
  parse_decimal neg (d1 ++ r) = make_num neg d1 (parse_exp r).
Proof.
  intros Hd Hr Hne. unfold parse_decimal.
  rewrite span_digits_app by (assumption || exact (exp_tail_nondigit r Hr)).
  destruct r as [|c r']; [|cbn in Hr; subst c]; cbn iota beta zeta;
    rewrite app_nil_r, match_list_nonempty by exact Hne; f_equal; cbn; lia.
Qed.

Lemma parse_decimal_frac neg d1 d2 r :
  forallb is_digit d1 = true -> forallb is_digit d2 = true -> exp_tail r -> d1 <> [] ->
  parse_decimal neg (d1 ++ "."%char :: d2 ++ r) =
  make_num neg (d1 ++ d2) (parse_exp r - Z.of_nat (List.length d2)).
Proof.
  intros Hd1 Hd2 Hr Hne. unfold parse_decimal.
  rewrite span_digits_app by (auto; reflexivity).
  cbn iota beta zeta.
  rewrite span_digits_app by (assumption || exact (exp_tail_nondigit r Hr)).
  cbn iota beta zeta.
  rewrite match_list_nonempty by (destruct d1; cbn; congruence). reflexivity.
Qed.

Lemma parseFloat_body_head neg l :
  match l with [] => False | c :: _ => is_digit c = true end ->
  parseFloat_body neg l = parse_decimal neg l.
Proof. destruct l as [|c r]; [contradiction|]. apply parseFloat_body_digit. Qed.

Lemma make_num_pre neg pre ds x :
  forallb is_digit pre = true -> chars_val pre = 0 ->
  ds <> [] -> Ascii.eqb (List.last ds "0"%char) "0" = false -> 0 < chars_val ds ->
  make_num neg (pre ++ ds) x = NFin (if neg then - chars_val ds else chars_val ds) x.
Proof.
  intros. pose proof (make_num_digits neg pre ds 0 x) as H'.
  cbn [zeros repeat] in H'. rewrite app_nil_r, Z.add_0_r in H'. auto.
Qed.

Lemma make_num_exact neg ds x :
  ds <> [] -> Ascii.eqb (List.last ds "0"%char) "0" = false -> 0 < chars_val ds ->
  make_num neg ds x = NFin (if neg then - chars_val ds else chars_val ds) x.
Proof. intros. apply (make_num_pre neg [] ds x); auto. Qed.

Lemma parse_decimal_layout neg ds e :
  forallb is_digit ds = true -> ds <> [] ->
  Ascii.eqb (List.last ds "0"%char) "0" = false -> 0 < chars_val ds ->
  parseFloat_body neg (layout_chars ds e) =
  NFin (if neg then - chars_val ds else chars_val ds) e.
Proof.
  intros Hd Hne Hlast Hpos.
  assert (Hhead : forall r, match ds ++ r with [] => False | c :: _ => is_digit c = true end)
    by (destruct ds as [|c ds']; [congruence|]; cbn in Hd |- *;
        apply andb_true_iff in Hd; tauto).
  unfold layout_chars.
  set (k := Z.of_nat (List.length ds)). set (n := e + k).
  assert (Hk : 1 <= k) by (unfold k; destruct ds; [congruence|]; cbn [List.length]; lia).
  destruct ((k <=? n) && (n <=? 21)) eqn:C1.
  { apply andb_true_iff in C1 as [C1 _]. apply Z.leb_le in C1.
    rewrite parseFloat_body_head by apply Hhead.
    rewrite <- (app_nil_r (ds ++ zeros (Z.to_nat (n - k)))).
    rewrite parse_decimal_int by (rewrite ?forallb_app, ?Hd, ?zeros_digits; cbn; auto;
                                   destruct ds; cbn; congruence).
    change (ds ++ zeros (Z.to_nat (n - k))) with ([] ++ ds ++ zeros (Z.to_nat (n - k))).
    rewrite make_num_digits by auto.
    f_equal. cbn. rewrite Z2Nat.id by lia. unfold n. lia. }
  destruct ((0 <? n) && (n <=? 21)) eqn:C2.
  { apply andb_true_iff in C2 as [C2 C2']. apply Z.ltb_lt in C2. apply Z.leb_le in C2'.
    assert (Hnk : n < k) by (apply andb_false_iff in C1 as [C1|C1];
                              [apply Z.leb_gt in C1 | apply Z.leb_gt in C1]; lia).
    destruct (forallb_firstn_skipn ds (Z.to_nat n) Hd) as [Hf Hs].
    assert (Hfne : firstn (Z.to_nat n) ds <> []).
    { intros Ef. apply (f_equal (@List.length ascii)) in Ef. rewrite length_firstn in Ef.
      cbn in Ef. unfold k in *. lia. }
    rewrite parseFloat_body_head.
    2:{ pose proof (Hhead []) as H. rewrite app_nil_r in H.
        rewrite <- (firstn_skipn (Z.to_nat n) ds) in H.
        destruct (firstn (Z.to_nat n) ds); [congruence | exact H]. }
    rewrite <- (app_nil_r (drop (Z.to_nat n) ds)).
    rewrite parse_decimal_frac by (auto; exact I).
    rewrite firstn_skipn.
    rewrite make_num_exact by auto.
    f_equal. cbn [parse_exp]. rewrite length_skipn. unfold k in *. lia. }
  destruct ((-6 <? n) && (n <=? 0)) eqn:C3.
  { apply andb_true_iff in C3 as [C3 C3']. apply Z.ltb_lt in C3. apply Z.leb_le in C3'.
    rewrite parseFloat_body_digit by reflexivity.
    change ("0"%char :: "."%char :: zeros (Z.to_nat (- n)) ++ ds)
      with (["0"%char] ++ "."%char :: (zeros (Z.to_nat (- n)) ++ ds)).
    rewrite <- (app_nil_r (zeros (Z.to_nat (- n)) ++ ds)).
    rewrite parse_decimal_frac
      by (rewrite ?forallb_app, ?zeros_digits, ?Hd; cbn; auto; congruence).
    rewrite app_assoc.
    change (["0"%char] ++ zeros (Z.to_nat (- n))) with ("0"%char :: zeros (Z.to_nat (- n))).
    rewrite make_num_pre by (auto using chars_val_zeros_cons;
                             cbn [forallb]; rewrite zeros_digits; reflexivity).
    f_equal. cbn [parse_exp]. rewrite length_app; unfold zeros; rewrite repeat_length.
    fold k. rewrite Nat2Z.inj_add, Z2Nat.id by lia. unfold n. lia. }
  assert (Hx : n - 1 <> 0).
  { apply andb_false_iff in C2 as [C2|C2]; apply andb_false_iff in C3 as [C3|C3];
      try apply Z.ltb_ge in C2; try apply Z.leb_gt in C2;
      try apply Z.ltb_ge in C3; try apply Z.leb_gt in C3; lia. }
  assert (Hn : n = e + Z.of_nat (List.length ds)) by reflexivity.
  clearbody k n. clear Hhead.
  destruct ds as [|d0 [|d1 rest]]; [congruence| |].
  - assert (Hd0 : is_digit d0 = true) by (cbn in Hd; apply andb_true_iff in Hd; tauto).
    rewrite parseFloat_body_digit by exact Hd0.
    match goal with |- parse_decimal _ (_ :: ?ex) = _ =>
      change (d0 :: ex) with ([d0] ++ ex) end.
    rewrite parse_decimal_int by (auto; reflexivity || congruence).
    rewrite make_num_exact by auto.
    rewrite parse_exp_layout by exact Hx. f_equal. cbn in Hn. lia.
  - assert (Hd0 : is_digit d0 = true) by (cbn in Hd; apply andb_true_iff in Hd; tauto).
    assert (Hr : forallb is_digit (d1 :: rest) = true)
      by (cbn in Hd |- *; apply andb_true_iff in Hd; tauto).
    rewrite parseFloat_body_digit by exact Hd0.
    match goal with |- parse_decimal _ (_ :: _ :: _ ++ ?ex) = _ =>
      change (d0 :: "."%char :: (d1 :: rest) ++ ex)
        with ([d0] ++ "."%char :: (d1 :: rest) ++ ex) end.
    rewrite parse_decimal_frac by (cbn [forallb]; rewrite ?Hd0; auto; reflexivity || congruence).
    cbn [app]. rewrite make_num_exact by auto.
    rewrite parse_exp_layout by exact Hx. f_equal. cbn [List.length] in Hn |- *. lia.
Qed.

Lemma digit_head_plain c r :
  is_digit c = true -> parse_sign (trim_start (c :: r)) = (false, c :: r).
Proof.
  intros Hc. destruct (is_digit_some c Hc) as [d Hd].
  destruct (digit_of_char_props c d Hd) as (_ & Hws & Hm & Hp & _).
  cbn [trim_start]. rewrite Hws. cbn [parse_sign]. rewrite Hm, Hp. reflexivity.
Qed.

Lemma layout_chars_head ds e :
  ds <> [] ->
  hd_error (layout_chars ds e) = Some "0"%char \/ hd_error (layout_chars ds e) = hd_error ds.
Proof.
  intros Hne. unfold layout_chars.
  destruct ((_ <=? _) && _); [right; destruct ds; [congruence | reflexivity]|].
  destruct ((0 <? _) && _) eqn:C2.
  { right. apply andb_true_iff in C2 as [C2 _]. apply Z.ltb_lt in C2.
    destruct (Z.to_nat _) eqn:En; [lia|]. destruct ds; [congruence | reflexivity]. }
  destruct ((-6 <? _) && _); [left; reflexivity|].
  right. destruct ds as [|d0 [|d1 rest]]; [congruence | reflexivity | reflexivity].
Qed.

Lemma pos_to_chars_head p e :
  exists c r, pos_to_chars p e = c :: r /\ is_digit c = true.
Proof.
  unfold pos_to_chars. pose proof (pos_chars_nonempty p) as Hne.
  pose proof (pos_chars_digits p) as Hd.
  destruct (layout_chars_head (pos_chars p) e Hne) as [H|H];
    destruct (pos_chars p) as [|c' r']; try congruence;
    destruct (layout_chars _ e) as [|c r]; cbn in H; try discriminate H;
    injection H as ->; (eexists _, _; split; [reflexivity|auto]).
  cbn in Hd. apply andb_true_iff in Hd. tauto.
Qed.

Lemma parseFloat_pos neg p e :
  Z.rem (Zpos p) 10 <> 0 ->
  parseFloat_body neg (pos_to_chars p e) = NFin (if neg then Zneg p else Zpos p) e.
Proof.
  intros Hr. unfold pos_to_chars.
  rewrite parse_decimal_layout; auto using pos_chars_digits, pos_chars_nonempty, pos_chars_last.
  - rewrite pos_chars_val. destruct neg; reflexivity.
  - rewrite pos_chars_val. lia.
Qed.

Lemma parseFloat_num_to_chars x :
  canonicalb x = true -> parseFloat_chars (num_to_chars x) = x.
Proof.
  destruct x as [[|p|p] e| | |]; cbn [canonicalb]; intros Hc; try reflexivity.
  - apply Z.eqb_eq in Hc. subst e. reflexivity.
  - apply negb_true_iff, Z.eqb_neq in Hc.
    cbn [num_to_chars]. unfold parseFloat_chars.
    destruct (pos_to_chars_head p e) as (c & r & E & Hd). rewrite E.
    rewrite digit_head_plain by exact Hd. rewrite <- E. apply parseFloat_pos. exact Hc.
  - apply negb_true_iff, Z.eqb_neq in Hc.
    cbn [num_to_chars]. unfold parseFloat_chars. cbn [trim_start is_ws nat_of_ascii].
    cbn. apply parseFloat_pos.
    change (Zneg p) with (- Zpos p) in Hc. rewrite Z.rem_opp_l in Hc by lia. lia.
Qed.

Lemma parseFloat_ToString x : canonicalb x = true -> parseFloat (num_ToString x) = x.
Proof.
  intros Hc. unfold parseFloat, num_ToString.
  rewrite list_ascii_of_string_of_list_ascii. apply parseFloat_num_to_chars, Hc.
Qed.

Lemma small_int_layout p e :
  0 <= e -> Zpos p * 10 ^ e < 10 ^ 21 ->
  pos_to_chars p e = pos_chars p ++ zeros (Z.to_nat e).
Proof.
  intros He Hlt. unfold pos_to_chars, layout_chars.
  pose proof (pos_chars_lower p) as Hl.
  pose proof (pos_chars_nonempty p) as Hne.
  set (k := Z.of_nat (List.length (pos_chars p))) in *.
  assert (Hk : 1 <= k) by (unfold k; destruct (pos_chars p); [congruence|]; cbn [List.length]; lia).
  assert (Hn : e + k <= 21).
  { destruct (Z.le_gt_cases (e + k) 21) as [|Hgt]; [assumption|exfalso].
    assert (10 ^ 21 <= 10 ^ (k - 1) * 10 ^ e).
    { rewrite <- Z.pow_add_r by lia. apply Z.pow_le_mono_r; lia. }
    pose proof (Z.pow_pos_nonneg 10 e ltac:(lia) He). nia. }
  replace ((k <=? e + k) && (e + k <=? 21)) with true
    by (symmetry; apply andb_true_iff; split; apply Z.leb_le; lia).
  f_equal. f_equal. f_equal. lia.
Qed.

Lemma parseInt_num_to_chars x :
  small_intb x = true -> parseInt_chars (num_to_chars x) = x.
Proof.
  destruct x as [m e| | |]; cbn [small_intb]; intros H; try discriminate H.
  apply andb_true_iff in H as [H Hlt]. apply andb_true_iff in H as [Hc He].
  apply Z.leb_le in He. apply Z.ltb_lt in Hlt.
  destruct m as [|p|p]; cbn [canonicalb] in Hc.
  - apply Z.eqb_eq in Hc. subst e. reflexivity.
  - apply negb_true_iff, Z.eqb_neq in Hc.
    cbn [num_to_chars]. rewrite small_int_layout by (cbn [Z.abs] in Hlt; lia).
    destruct (pos_chars_head p) as (c & r & Ep & _).
    pose proof (pos_chars_digits p) as Hd. rewrite Ep in Hd.
    assert (Hc0 : is_digit c = true) by (cbn in Hd; apply andb_true_iff in Hd; tauto).
    assert (E : parse_sign (trim_start (pos_chars p ++ zeros (Z.to_nat e))) =
                (false, pos_chars p ++ zeros (Z.to_nat e)))
      by (rewrite Ep; apply digit_head_plain, Hc0).
    unfold parseInt_chars. rewrite E.
    rewrite span_digits_all by (rewrite forallb_app, pos_chars_digits; apply zeros_digits).
    rewrite match_list_nonempty
      by (pose proof (pos_chars_nonempty p); destruct (pos_chars p); cbn; congruence).
    change (pos_chars p ++ zeros (Z.to_nat e)) with ([] ++ pos_chars p ++ zeros (Z.to_nat e)).
    rewrite make_num_digits; auto using pos_chars_digits, pos_chars_nonempty, pos_chars_last.
    + rewrite pos_chars_val, Z2Nat.id by lia. reflexivity.
    + rewrite pos_chars_val. lia.
  - apply negb_true_iff, Z.eqb_neq in Hc.
    change (Zneg p) with (- Zpos p) in Hc. rewrite Z.rem_opp_l in Hc by lia.
    assert (Hc' : Z.rem (Zpos p) 10 <> 0) by lia.
    cbn [num_to_chars]. rewrite small_int_layout by (cbn [Z.abs] in Hlt; lia).
    assert (E : forall l, parse_sign (trim_start ("-"%char :: l)) = (true, l))
      by reflexivity.
    unfold parseInt_chars. rewrite E.
    rewrite span_digits_all by (rewrite forallb_app, pos_chars_digits; apply zeros_digits).
    rewrite match_list_nonempty
      by (pose proof (pos_chars_nonempty p); destruct (pos_chars p); cbn; congruence).
    change (pos_chars p ++ zeros (Z.to_nat e)) with ([] ++ pos_chars p ++ zeros (Z.to_nat e)).
    rewrite make_num_digits; auto using pos_chars_digits, pos_chars_nonempty, pos_chars_last.
    + rewrite pos_chars_val, Z2Nat.id by lia. reflexivity.
    + rewrite pos_chars_val. lia.
Qed.

Lemma parseInt_ToString x : small_intb x = true -> parseInt (num_ToString x) = x.
Proof.
  intros Hc. unfold parseInt, num_ToString.
  rewrite list_ascii_of_string_of_list_ascii. apply parseInt_num_to_chars, Hc.
Qed.

(** ** Objects *)

Lemma obj_get_set o k v k' :
  obj_get (obj_set o k v) k' = if String.eqb k' k then Some v else obj_get o k'.
Proof.
  induction o as [|[k1 v1] o IH]; cbn [obj_set obj_get].
  - destruct (String.eqb k' k); reflexivity.
  - destruct (String.eqb k k1) eqn:E1; cbn [obj_get].
    + apply String.eqb_eq in E1. subst k1. destruct (String.eqb k' k); reflexivity.
    + rewrite IH. destruct (String.eqb k' k) eqn:E2; [|reflexivity].
      apply String.eqb_eq in E2. subst k'. rewrite E1. reflexivity.
Qed.

Lemma obj_get_del o k k' :
  obj_get (obj_del o k) k' = if String.eqb k' k then None else obj_get o k'.
Proof.
  unfold obj_del. induction o as [|[k1 v1] o IH]; cbn [List.filter obj_get fst].
  - destruct (String.eqb k' k); reflexivity.
  - destruct (String.eqb k1 k) eqn:E1; cbn [negb obj_get].
    + apply String.eqb_eq in E1. subst k1. rewrite IH.
      destruct (String.eqb k' k); reflexivity.
    + rewrite IH. destruct (String.eqb k' k) eqn:E2; [|reflexivity].
      apply String.eqb_eq in E2. subst k'. rewrite String.eqb_sym, E1. reflexivity.
Qed.

Lemma obj_get_hash o k :
  obj_get (hash_to_obj (serialize o)) k = option_map (fun v => JStr (js_ToString v)) (obj_get o k).
Proof.
  induction o as [|[k1 v1] o IH]; cbn; [reflexivity|].
  destruct (String.eqb k k1); [reflexivity | exact IH].
Qed.

Lemma get_field_obj o k co : get_field o k = JObj co -> obj_get o k = Some (JObj co).
Proof. unfold get_field. destruct (obj_get o k); cbn; congruence. Qed.

Lemma get_field_set o k v k' :
  get_field (obj_set o k v) k' = if String.eqb k' k then v else get_field o k'.
Proof. unfold get_field. rewrite obj_get_set. destruct (String.eqb k' k); reflexivity. Qed.

Ltac obj_simpl :=
  repeat (rewrite ?obj_get_set, ?obj_get_del, ?obj_get_hash; cbn [String.eqb Ascii.eqb Bool.eqb]).

(** ** C3: the codec round trip *)

(** C3 (amended).  A site whose id and panels are integers below [10^21] in
    magnitude and whose capacity and coordinate are numbers, written by
    [flatten] and the string serialisation of the hash and read back by
    [remap], has the same id, panels and capacity, and the coordinate
    [{lat, lng}] with the same numbers. *)
Lemma codec_roundtrip site i p c co la ln :
  get_field site "id" = JNum i -> get_field site "panels" = JNum p ->
  get_field site "capacity" = JNum c -> get_field site "coordinate" = JObj co ->
  get_field co "lat" = JNum la -> get_field co "lng" = JNum ln ->
  small_intb i = true -> small_intb p = true ->
  canonicalb c = true -> canonicalb la = true -> canonicalb ln = true ->
  exists r, site_roundtrip site = Ok r /\
    get_field r "id" = JNum i /\ get_field r "panels" = JNum p /\
    get_field r "capacity" = JNum c /\
    get_field r "coordinate" = JObj [("lat", JNum la); ("lng", JNum ln)].
Proof.
  intros Hi Hp Hc Hco Hla Hln Si Sp Sc Sla Sln.
  unfold site_roundtrip, flatten, hasOwnProperty.
  rewrite (get_field_obj _ _ _ Hco), Hco. cbn [jsres_bind prop]. rewrite Hla.
  cbn [jsres_bind]. rewrite get_field_set. cbn [String.eqb Ascii.eqb Bool.eqb].
  rewrite Hco. cbn [jsres_bind prop]. rewrite Hln. cbn [jsres_bind].
  eexists. split; [reflexivity|].
  unfold remap, hasOwnProperty, get_field.
  obj_simpl.
  unfold get_field in Hi, Hp, Hc.
  destruct (obj_get site "id"); cbn in Hi; [subst|discriminate].
  destruct (obj_get site "panels"); cbn in Hp; [subst|discriminate].
  destruct (obj_get site "capacity"); cbn in Hc; [subst|discriminate].
  cbn [option_map default from_option id js_ToString andb].
  obj_simpl. cbn [default from_option id option_map js_ToString].
  rewrite !parseInt_ToString, !parseFloat_ToString by assumption.
  repeat split; reflexivity.
Qed.

Lemma codec_roundtrip_witness :
  exists r, site_roundtrip sample_site = Ok r /\
    get_field r "id" = JNum (NFin 7 0) /\ get_field r "panels" = JNum (NFin 12 0) /\
    get_field r "capacity" = JNum (NFin 45 (-1)) /\
    get_field r "coordinate" =
      JObj [("lat", JNum (NFin 3775 (-2))); ("lng", JNum (NFin (-12241) (-2)))].
Proof.
  apply (codec_roundtrip sample_site (NFin 7 0) (NFin 12 0) (NFin 45 (-1))
           [("lat", JNum (NFin 3775 (-2))); ("lng", JNum (NFin (-12241) (-2)))]
           (NFin 3775 (-2)) (NFin (-12241) (-2))); reflexivity.
Defined.

(** C3 (counterexample).  The id [1e21] is stored as the string ["1e+21"],
    which [parseInt] reads as [1]. *)
Lemma codec_roundtrip_big_id :
  get_field big_id_site "id" = JNum (NFin 1 21) /\
  exists r, site_roundtrip big_id_site = Ok r /\ get_field r "id" = JNum (NFin 1 0).
Proof. split; [reflexivity|]. eexists. split; reflexivity. Qed.

(** ** C10: a record with one of [lat] and [lng] *)

(** C10.  For a record without a [coordinate] field, [remap] builds the
    [coordinate] object, and removes [lat] and [lng], exactly when both [lat]
    and [lng] are present; when one of them (or neither) is present there is
    no [coordinate] in the result and [lat] and [lng] are left as they were. *)
Theorem remap_partial_coordinate h :
  obj_get h "coordinate" = None ->
  (hasOwnProperty h "lat" && hasOwnProperty h "lng" = false ->
     obj_get (remap h) "coordinate" = None /\
     obj_get (remap h) "lat" = obj_get h "lat" /\
     obj_get (remap h) "lng" = obj_get h "lng") /\
  (hasOwnProperty h "lat" && hasOwnProperty h "lng" = true ->
     obj_get (remap h) "lat" = None /\ obj_get (remap h) "lng" = None /\
     exists c, obj_get (remap h) "coordinate" = Some (JObj c)).
Proof.
  intros Hco. unfold remap. split; intros Hb; rewrite Hb; obj_simpl.
  - rewrite Hco. repeat split; reflexivity.
  - repeat split; eauto.
Qed.

Lemma remap_partial_coordinate_witness :
  obj_get [("id", JStr "1"); ("lat", JStr "37.5")] "coordinate" = None /\
  obj_get (remap [("id", JStr "1"); ("lat", JStr "37.5")]) "coordinate" = None /\
  obj_get (remap [("id", JStr "1"); ("lat", JStr "37.5")]) "lat" = Some (JStr "37.5").
Proof.
  split; [reflexivity|].
  destruct (proj1 (remap_partial_coordinate [("id", JStr "1"); ("lat", JStr "37.5")]
                     eq_refl) eq_refl) as (H1 & H2 & _).
  split; [exact H1 | exact H2].
Defined.

(** ** C6, C7: findById and the not-found sentinel *)

(** C6.  When the site's hash key is absent, findById returns [null] and
    leaves the store alone; when it holds a (non-empty) hash, findById
    returns that hash decoded by [remap]. *)
Theorem findById_absent_present id s t :
  (kv s !! getSiteHashKey id = None ->
     findById id (mkWorld s t) = (mkWorld s t, Ok None)) /\
  (forall h, kv s !! getSiteHashKey id = Some (RHash h) -> h <> [] ->
     findById id (mkWorld s t) = (mkWorld s t, Ok (Some (remap (hash_to_obj h))))).
Proof.
  unfold findById, hgetallAsync, bind, send, ret. cbn [db tmp_used exec_cmd].
  split.
  - intros H. rewrite H. reflexivity.
  - intros h H Hne. rewrite H. destruct h as [|p h]; [congruence | reflexivity].
Qed.

(** C7.  The not-found sentinel passes through findById's decode step
    unchanged: findById resolves to [null] exactly when the HGETALL reply is
    the client's [null], and then without calling the decoder; the client
    turns the empty reply of an absent hash into [null]; so for an absent
    hash key findById resolves to [null] and leaves the world as it is. *)
Theorem remap_sentinel_guarded id s t :
  (forall w, snd (findById id w) = Ok None <->
             snd (hgetallAsync (getSiteHashKey id) w) = Ok None) /\
  hgetall_value (RHashReply []) = None /\
  (kv s !! getSiteHashKey id = None ->
     findById id (mkWorld s t) = (mkWorld s t, Ok None)).
Proof.
  split; [|split; [reflexivity|]].
  - intros w. unfold findById, bind, ret.
    destruct (hgetallAsync (getSiteHashKey id) w) as [w1 [[h|]|e]]; cbn [snd];
      split; intros H; first [reflexivity | discriminate H].
  - intros H. unfold findById, hgetallAsync, bind, send, ret. cbn [db tmp_used exec_cmd].
    rewrite H. reflexivity.
Qed.

(** ** C2: insert of a site without a coordinate *)

(** C2.  For a site without a [coordinate] (and with some field), insert
    first writes the site's hash with HMSET and only then throws the plain
    Error ["Coordinate required for site geo insert!"]: the failed call
    leaves the hash in the store. *)
Theorem insert_without_coordinate site s t :
  hasOwnProperty site "coordinate" = false -> site <> [] ->
  kv s !! getSiteHashKey (get_field site "id") = None ->
  exists s',
    insert site (mkWorld s t) =
      (mkWorld s' t, Throw (Error "Coordinate required for site geo insert!")) /\
    kv s' !! getSiteHashKey (get_field site "id") =
      Some (RHash (hash_merge [] (serialize site))).
Proof.
  intros Hco Hne Hk. unfold insert, bind, lift, send, throw.
  unfold flatten. rewrite Hco. cbn [db tmp_used].
  destruct (serialize site) as [|p r] eqn:Es.
  { destruct site; [congruence | discriminate]. }
  cbn [exec_cmd]. rewrite Hk. cbn [negb].
  eexists. split; [reflexivity|].
  cbn [write_key kv]. apply lookup_insert_eq.
Qed.
(** ** C9: the letter case of the unit *)

(** C9.  The unit reaches the store only through [toLowerCase]: two units
    with the same lower-case form ([KM] and [km], [MI] and [mi]) give the same
    result and the same final state, for findByGeo and for
    findByGeoWithExcessCapacity. *)
Theorem findByGeo_unit_case lat lng radius u1 u2 w :
  toLowerCase u1 = toLowerCase u2 ->
  findByGeo lat lng radius u1 w = findByGeo lat lng radius u2 w /\
  findByGeoWithExcessCapacity lat lng radius u1 w =
  findByGeoWithExcessCapacity lat lng radius u2 w.
Proof.
  intros H. unfold findByGeo, findByGeoWithExcessCapacity. rewrite H. split; reflexivity.
Qed.

(** ** Hashes and sorted sets *)

Lemma hash_set_get h f v f' :
  obj_get (hash_to_obj (hash_set h f v)) f' =
  if String.eqb f' f then Some (JStr v) else obj_get (hash_to_obj h) f'.
Proof.
  induction h as [|[f1 v1] h IH]; cbn [hash_set hash_to_obj map obj_get fst snd].
  - destruct (String.eqb f' f); reflexivity.
  - destruct (String.eqb f f1) eqn:E1; cbn [map obj_get fst snd].
    + apply String.eqb_eq in E1. subst f1. destruct (String.eqb f' f); reflexivity.
    + fold (hash_to_obj (hash_set h f v)). rewrite IH.
      destruct (String.eqb f' f) eqn:E2; [|reflexivity].
      apply String.eqb_eq in E2. subst f'. rewrite E1. reflexivity.
Qed.

Lemma hash_merge_get h fields f :
  List.NoDup (map fst fields) ->
  obj_get (hash_to_obj (hash_merge h fields)) f =
  match obj_get (hash_to_obj fields) f with
  | Some v => Some v
  | None => obj_get (hash_to_obj h) f
  end.
Proof.
  unfold hash_merge. revert h.
  induction fields as [|[f1 v1] fields IH]; intros h Hnd; [reflexivity|].
  cbn [fold_left fst snd map obj_get hash_to_obj] in *.
  inversion Hnd as [|? ? Hnin Hnd']; subst.
  fold (hash_to_obj fields). rewrite IH by exact Hnd'.
  rewrite hash_set_get.
  destruct (String.eqb f f1) eqn:E; [|reflexivity].
  apply String.eqb_eq in E. subst f1.
  destruct (obj_get (hash_to_obj fields) f) eqn:Eg; [|reflexivity].
  exfalso. apply Hnin. clear -Eg.
  induction fields as [|[f2 v2] fields IH]; cbn in Eg |- *; [discriminate|].
  destruct (String.eqb f f2) eqn:E; [left; apply String.eqb_eq in E; congruence|].
  right. auto.
Qed.

Lemma map_fst_serialize o : map fst (serialize o) = map fst o.
Proof. unfold serialize. rewrite map_map. reflexivity. Qed.

Lemma in_keys_obj_set o k v x :
  In x (map fst (obj_set o k v)) -> x = k \/ In x (map fst o).
Proof.
  induction o as [|[k1 v1] o IH]; cbn [obj_set map fst In].
  - intros [H|[]]. auto.
  - destruct (String.eqb k k1) eqn:E; cbn [map fst In].
    + apply String.eqb_eq in E. subst k1. intros [H|H]; auto.
    + intros [H|H]; [auto|]. destruct (IH H); auto.
Qed.

Lemma nodup_obj_set o k v : List.NoDup (map fst o) -> List.NoDup (map fst (obj_set o k v)).
Proof.
  induction o as [|[k1 v1] o IH]; cbn [obj_set map fst]; intros Hnd.
  - constructor; [intros []|constructor].
  - inversion Hnd as [|? ? Hnin Hnd']; subst.
    destruct (String.eqb k k1) eqn:E; cbn [map fst].
    + apply String.eqb_eq in E. subst k1. constructor; assumption.
    + constructor; [|auto]. intros Hin. destruct (in_keys_obj_set _ _ _ _ Hin) as [->|H].
      * rewrite String.eqb_refl in E. discriminate.
      * contradiction.
Qed.

Lemma nodup_obj_del o k : List.NoDup (map fst o) -> List.NoDup (map fst (obj_del o k)).
Proof.
  unfold obj_del. induction o as [|[k1 v1] o IH]; cbn [List.filter map fst]; intros Hnd;
    [constructor|].
  inversion Hnd as [|? ? Hnin Hnd']; subst.
  destruct (negb (String.eqb k1 k)); cbn [map fst]; [|auto].
  constructor; [|auto]. intros Hin. apply Hnin.
  apply in_map_iff in Hin as ([x y] & <- & Hxy). apply filter_In in Hxy as [Hxy _].
  apply in_map_iff. exists (x, y). auto.
Qed.

Lemma nodup_flatten site fl :
  List.NoDup (map fst site) -> flatten site = Ok fl -> List.NoDup (map fst fl).
Proof.
  unfold flatten. intros Hnd.
  destruct (hasOwnProperty site "coordinate"); [|intros [= <-]; exact Hnd].
  destruct (prop _ "lat") as [lat|]; cbn [jsres_bind]; [|discriminate].
  destruct (prop _ "lng") as [lng|]; cbn [jsres_bind]; [|discriminate].
  intros [= <-]. apply nodup_obj_del, nodup_obj_set, nodup_obj_set, Hnd.
Qed.

Lemma zs_score_ins m sc z m' :
  zs_score z m = None ->
  zs_score (zs_ins (m, sc) z) m' = if String.eqb m' m then Some sc else zs_score z m'.
Proof.
  induction z as [|[m1 s1] z IH]; cbn [zs_ins zs_score]; intros Hn.
  - reflexivity.
  - destruct (String.eqb m m1) eqn:E1; [discriminate|].
    destruct (zlt (m, sc) (m1, s1)); cbn [zs_score].
    + destruct (String.eqb m' m); reflexivity.
    + rewrite IH by exact Hn. destruct (String.eqb m' m) eqn:E2; [|reflexivity].
      apply String.eqb_eq in E2. subst m'. rewrite E1. reflexivity.
Qed.

Lemma zs_score_remove m z m' :
  zs_score (zs_remove m z) m' = if String.eqb m' m then None else zs_score z m'.
Proof.
  unfold zs_remove. induction z as [|[m1 s1] z IH]; cbn [List.filter zs_score fst].
  - destruct (String.eqb m' m); reflexivity.
  - destruct (String.eqb m1 m) eqn:E1; cbn [negb zs_score].
    + apply String.eqb_eq in E1. subst m1. rewrite IH.
      destruct (String.eqb m' m); reflexivity.
    + rewrite IH. destruct (String.eqb m' m) eqn:E2; [|reflexivity].
      apply String.eqb_eq in E2. subst m'. rewrite String.eqb_sym, E1. reflexivity.
Qed.

Lemma zs_score_add m sc z m' :
  zs_score (zs_add m sc z) m' = if String.eqb m' m then Some sc else zs_score z m'.
Proof.
  unfold zs_add. rewrite zs_score_ins by (rewrite zs_score_remove, String.eqb_refl; reflexivity).
  rewrite zs_score_remove. destruct (String.eqb m' m); reflexivity.
Qed.

(** The site hash keys, the geo key and the capacity key are distinct. *)
Lemma siteHashKey_not_geo id : getSiteHashKey id <> getSiteGeoKey.
Proof. unfold getSiteHashKey, getSiteGeoKey, key_prefix. cbn. discriminate. Qed.

Lemma siteHashKey_not_capacity id : getSiteHashKey id <> getCapacityRankingKey.
Proof. unfold getSiteHashKey, getCapacityRankingKey, key_prefix. cbn. discriminate. Qed.


(** ** C4: a successful insert *)


(** C4.  When insert returns normally (for a site whose keys are distinct, as
    a JavaScript object's are), it returns the site's hash key; that key
    holds a hash with every field of the flattened site, as the string the
    client sends; and the geo key holds a sorted set in which the site's id
    has the geohash of the site's (lng, lat). *)
Theorem insert_success site w w' k :
  List.NoDup (map fst site) ->
  insert site w = (w', Ok k) ->
  k = getSiteHashKey (get_field site "id") /\
  (exists fl h, flatten site = Ok fl /\ kv (db w') !! k = Some (RHash h) /\
     forall f v, obj_get fl f = Some v ->
       obj_get (hash_to_obj h) f = Some (JStr (js_ToString v))) /\
  (exists lng lat sc z,
     prop (get_field site "coordinate") "lng" = Ok lng /\
     prop (get_field site "coordinate") "lat" = Ok lat /\
     geoencode (js_ToString lng) (js_ToString lat) = Some sc /\
     kv (db w') !! getSiteGeoKey = Some (RZSet z) /\
     zs_score z (js_ToString (get_field site "id")) = Some sc).
Proof.
  intros Hnd Hins. unfold insert, bind, lift, send, throw, ret in Hins.
  set (key := getSiteHashKey (get_field site "id")) in *.
  destruct (flatten site) as [fl|e] eqn:Ef; [|discriminate Hins].
  destruct (exec_cmd (db w) (HMSET key (serialize fl))) as [s1 r1] eqn:E1.
  destruct r1 as [r1|e]; [|discriminate Hins].
  (* the hash written by HMSET *)
  assert (Hh : exists h0, kv s1 !! key = Some (RHash (hash_merge h0 (serialize fl)))).
  { cbn [exec_cmd] in E1. destruct (serialize fl) as [|p ps]; [discriminate E1|].
    destruct (kv (db w) !! key) as [[h0|z]|]; unfold wrongtype in E1;
      [| discriminate E1 |]; injection E1 as <- _; [exists h0 | exists []];
      apply lookup_insert_eq. }
  destruct (negb (hasOwnProperty site "coordinate")); [discriminate Hins|].
  destruct (prop (get_field site "coordinate") "lng") as [lng|e] eqn:Elng;
    [|discriminate Hins].
  destruct (prop (get_field site "coordinate") "lat") as [lat|e] eqn:Elat;
    [|discriminate Hins].
  cbn [db tmp_used] in Hins.
  destruct (exec_cmd s1 (GEOADD getSiteGeoKey (js_ToString lng) (js_ToString lat)
                          (js_ToString (get_field site "id")))) as [s2 r2] eqn:E2.
  destruct r2 as [r2|e]; [|discriminate Hins].
  injection Hins as <- <-. cbn [db].
  cbn [exec_cmd] in E2.
  destruct (geoencode (js_ToString lng) (js_ToString lat)) as [sc|] eqn:Eg;
    [|injection E2 as _ E2; discriminate E2].
  destruct (get_zset s1 getSiteGeoKey) as [z|e]; [|injection E2 as _ E2; discriminate E2].
  injection E2 as <- _.
  split; [reflexivity|]. split.
  - destruct Hh as [h0 Hh]. exists fl, (hash_merge h0 (serialize fl)).
    split; [reflexivity|]. split.
    + cbn [write_key kv]. rewrite lookup_insert_ne by (intros Heq; apply (siteHashKey_not_geo (get_field site "id")); symmetry; exact Heq).
      exact Hh.
    + intros f v Hf. rewrite hash_merge_get.
      * rewrite obj_get_hash, Hf. reflexivity.
      * rewrite map_fst_serialize. exact (nodup_flatten site fl Hnd Ef).
  - exists lng, lat, sc, (zs_add (js_ToString (get_field site "id")) sc z).
    repeat split; try assumption.
    + cbn [write_key kv]. apply lookup_insert_eq.
    + rewrite zs_score_add, String.eqb_refl. reflexivity.
Qed.

(** ** The monad: calls that leave the world alone *)

Lemma world_eta w : mkWorld (db w) (tmp_used w) = w.
Proof. destruct w; reflexivity. Qed.


Lemma lift_pres {A} (r : jsres A) w : fst (lift r w) = w.
Proof. reflexivity. Qed.










(** ** The temporary keys *)

Lemma append_empty_r s : String.append s EmptyString = s.
Proof. induction s as [|c s IH]; [reflexivity | exact (f_equal (String c) IH)]. Qed.

(** stdpp's [fresh_string s m] extends [s]. *)
Lemma fresh_string_prefix {A} s (m : stringmap A) : exists t, fresh_string s m = s +:+ t.
Proof.
  unfold fresh_string.
  destruct (m !! s) as [a|]; [clear a | exists EmptyString; symmetry; apply append_empty_r].
  generalize 0%N (wf_guard 32 (fresh_string_R_wf s m) 0%N).
  fix FIX 2; intros n [?]; simpl; unfold fresh_string_go at 1; simpl.
  destruct (Some_dec _) as [[??]|?]; eauto.
Qed.

Lemma getTemporaryKey_spec w :
  exists k t,
    getTemporaryKey w = (mkWorld (db w) ({[k]} ∪ tmp_used w), Ok k) /\
    kv (db w) !! k = None /\ (k ∉ tmp_used w) /\ k = String.append (key_prefix +:+ ":tmp:") t.
Proof.
  unfold getTemporaryKey.
  set (X := dom (kv (db w)) ∪ tmp_used w).
  pose proof (fresh_string_of_set_fresh X (key_prefix +:+ ":tmp:")) as Hf.
  destruct (fresh_string_prefix (key_prefix +:+ ":tmp:") (mapset.mapset_car X)) as [t Ht].
  set (k := fresh_string_of_set (key_prefix +:+ ":tmp:") X) in *.
  exists k, t. split; [reflexivity|].
  apply not_elem_of_union in Hf as [Hd Ht'].
  split; [apply not_elem_of_dom; exact Hd|]. split; [exact Ht'|]. exact Ht.
Qed.

Lemma tmp_key_not_site t id : String.append (key_prefix +:+ ":tmp:") t <> getSiteHashKey id.
Proof. unfold getSiteHashKey, key_prefix. cbn. discriminate. Qed.


Lemma tmp_key_not_capacity t : String.append (key_prefix +:+ ":tmp:") t <> getCapacityRankingKey.
Proof. unfold getCapacityRankingKey, key_prefix. cbn. discriminate. Qed.

(** ** What the commands of the batch write *)

Lemma store_result_other s d z k :
  k <> d ->
  kv (fst (store_result s d z)) !! k = kv s !! k /\
  ttl (fst (store_result s d z)) !! k = ttl s !! k.
Proof.
  intros Hk. destruct z; cbn [store_result fst del_key set_key kv ttl];
    rewrite ?lookup_delete_ne, ?lookup_insert_ne by congruence; auto.
Qed.

Lemma exec_georadius_other s g lng lat r u d k :
  k <> d ->
  kv (fst (exec_cmd s (GEORADIUS g lng lat r u (Some d)))) !! k = kv s !! k /\
  ttl (fst (exec_cmd s (GEORADIUS g lng lat r u (Some d)))) !! k = ttl s !! k.
Proof.
  intros Hk. cbn [exec_cmd].
  destruct (kv s !! g) as [[|z]|]; auto.
  destruct (unit_factor u); auto. destruct (geo_args_ok lng lat r); auto.
  apply store_result_other, Hk.
Qed.

Lemma exec_zinter_other s d ks ws k :
  k <> d ->
  kv (fst (exec_cmd s (ZINTERSTORE d ks ws))) !! k = kv s !! k /\
  ttl (fst (exec_cmd s (ZINTERSTORE d ks ws))) !! k = ttl s !! k.
Proof.
  intros Hk. cbn [exec_cmd].
  destruct ks as [|k1 [|k2 [|]]]; auto. destruct ws as [|w1 [|w2 [|]]]; auto.
  destruct (get_zset s k1), (get_zset s k2); auto. apply store_result_other, Hk.
Qed.

Lemma exec_expire_kv s k n : kv (fst (exec_cmd s (EXPIRE k n))) = kv s.
Proof. cbn [exec_cmd]. destruct (kv s !! k); reflexivity. Qed.



Lemma batch_eq cs w :
  batch cs w = (mkWorld (fst (exec_batch (db w) cs)) (tmp_used w), Ok (snd (exec_batch (db w) cs))).
Proof. unfold batch. destruct (exec_batch (db w) cs); reflexivity. Qed.

Lemma exec_batch_cons_fst s c cs :
  fst (exec_batch s (c :: cs)) = fst (exec_batch (fst (exec_cmd s c)) cs).
Proof.
  cbn [exec_batch]. destruct (exec_cmd s c) as [s1 x]. cbn [fst].
  destruct (exec_batch s1 cs); reflexivity.
Qed.




(** ** What insert writes *)




(** ** C8: what the DAO operations write *)


(** ** Sorted-set membership *)

Lemma in_zs_ins p q z : In p (zs_ins q z) <-> p = q \/ In p z.
Proof.
  induction z as [|r z IH]; cbn [zs_ins In].
  - intuition.
  - destruct (zlt q r); cbn [In]; [intuition|]. rewrite IH. intuition.
Qed.

Lemma in_zs_remove p m z : In p (zs_remove m z) <-> In p z /\ fst p <> m.
Proof.
  unfold zs_remove. rewrite filter_In. destruct (String.eqb (fst p) m) eqn:E; cbn [negb].
  - apply String.eqb_eq in E. intuition discriminate.
  - apply String.eqb_neq in E. intuition.
Qed.

Lemma in_zs_add p m sc z : In p (zs_add m sc z) <-> p = (m, sc) \/ (In p z /\ fst p <> m).
Proof. unfold zs_add. rewrite in_zs_ins, in_zs_remove. reflexivity. Qed.

Lemma in_zs_of_list_from p l z :
  In p (fold_left (fun z p => zs_add (fst p) (snd p) z) l z) -> In p l \/ In p z.
Proof.
  revert z. induction l as [|[m sc] l IH]; intros z H; cbn [fold_left] in H; [auto|].
  destruct (IH _ H) as [H1|H1]; [cbn; auto|].
  apply in_zs_add in H1 as [->|[H1 _]]; cbn; auto.
Qed.

Lemma key_zs_of_list_from m l z :
  In m (map fst l) \/ In m (map fst z) ->
  In m (map fst (fold_left (fun z p => zs_add (fst p) (snd p) z) l z)).
Proof.
  revert z. induction l as [|[m1 sc] l IH]; intros z H; cbn [fold_left map fst In] in *.
  - destruct H as [[]|H]; exact H.
  - apply IH. destruct (String.eqb m m1) eqn:E.
    + apply String.eqb_eq in E. subst m1. right. apply in_map_iff. exists (m, sc).
      split; [reflexivity|]. apply in_zs_add. auto.
    + apply String.eqb_neq in E. destruct H as [[H|H]|H]; [congruence|auto|].
      right. apply in_map_iff in H as ([m' s'] & Hm & Hin). cbn in Hm. subst m'.
      apply in_map_iff. exists (m, s'). split; [reflexivity|]. apply in_zs_add. auto.
Qed.

Lemma in_zs_of_list p l : In p (zs_of_list l) -> In p l.
Proof. unfold zs_of_list. intros H. destruct (in_zs_of_list_from p l [] H) as [H'|[]]. exact H'. Qed.

Lemma key_zs_of_list m l : In m (map fst l) -> In m (map fst (zs_of_list l)).
Proof. intros H. apply key_zs_of_list_from. auto. Qed.

Lemma zs_score_in z m q : zs_score z m = Some q -> In (m, q) z.
Proof.
  induction z as [|[m1 s1] z IH]; cbn [zs_score In]; [discriminate|].
  destruct (String.eqb m m1) eqn:E; [apply String.eqb_eq in E; intros [= ->]; left; congruence|].
  intros H; right; auto.
Qed.

Lemma in_zinter2 w1 w2 z1 z2 m sc :
  In (m, sc) (zinter2 w1 w2 z1 z2) ->
  exists s1 s2, In (m, s1) z1 /\ zs_score z2 m = Some s2 /\ sc = (w1 * s1 + w2 * s2)%Q.
Proof.
  unfold zinter2. intros H. apply in_zs_of_list, in_flat_map in H as ([m1 s1] & Hin & H).
  cbn [fst snd] in H. destruct (zs_score z2 m1) as [s2|] eqn:E; [|destruct H].
  destruct H as [[= <- <-]|[]]. exists s1, s2. auto.
Qed.

Lemma key_zinter2 w1 w2 z1 z2 m s1 s2 :
  In (m, s1) z1 -> zs_score z2 m = Some s2 -> In m (map fst (zinter2 w1 w2 z1 z2)).
Proof.
  intros H1 H2. unfold zinter2. apply key_zs_of_list, in_map_iff.
  exists (m, (w1 * s1 + w2 * s2)%Q). split; [reflexivity|].
  apply in_flat_map. exists (m, s1). split; [exact H1|]. cbn [fst snd]. rewrite H2. left. reflexivity.
Qed.

(** With the weights 0 and 1 the score of a member of the intersection is its
    score in the second set. *)
Lemma zinter2_0_1_score z1 z2 m sc :
  In (m, sc) (zinter2 0 1 z1 z2) -> exists q, zs_score z2 m = Some q /\ (sc == q)%Q.
Proof.
  intros H. destruct (in_zinter2 _ _ _ _ _ _ H) as (s1 & s2 & _ & Hs & ->).
  exists s2. split; [exact Hs|]. ring.
Qed.

Lemma get_zset_store_result s d z : get_zset (fst (store_result s d z)) d = Ok z.
Proof.
  unfold get_zset. destruct z; cbn [store_result fst del_key set_key kv].
  - rewrite lookup_delete_eq. reflexivity.
  - rewrite lookup_insert_eq. reflexivity.
Qed.

Lemma get_zset_same_kv s s' k : kv s' !! k = kv s !! k -> get_zset s' k = get_zset s k.
Proof. unfold get_zset. intros ->. reflexivity. Qed.

(** ** The site lookups *)

Lemma hgetallAsync_value k s t :
  (forall z, kv s !! k <> Some (RZSet z)) ->
  hgetallAsync k (mkWorld s t) =
  (mkWorld s t, Ok (match kv s !! k with
                    | Some (RHash h) => hgetall_value (RHashReply h)
                    | _ => None
                    end)).
Proof.
  intros Hk. unfold hgetallAsync, bind, send, ret. cbn [db tmp_used exec_cmd].
  destruct (kv s !! k) as [[h|z]|]; [reflexivity | destruct (Hk z eq_refl) | reflexivity].
Qed.

Lemma lookup_sites_ok ids s t :
  (forall m z, kv s !! getSiteHashKey (JStr m) <> Some (RZSet z)) ->
  exists sites,
    lookup_sites ids (mkWorld s t) = (mkWorld s t, Ok sites) /\
    forall x, In x sites <->
      exists m h, In m ids /\ kv s !! getSiteHashKey (JStr m) = Some (RHash h) /\
                  h <> [] /\ x = remap (hash_to_obj h).
Proof.
  intros Hs. induction ids as [|m ids IH].
  - exists []. split; [reflexivity|]. intros x. split; [intros []|].
    intros (m & h & [] & _).
  - destruct IH as (sites & E & Hin).
    cbn [lookup_sites]. unfold bind at 1. rewrite hgetallAsync_value by apply Hs.
    unfold bind. rewrite E. unfold ret.
    destruct (kv s !! getSiteHashKey (JStr m)) as [[[|p h]|z]|] eqn:Ek;
      cbn [hgetall_value].
    1,3,4: eexists; split; [reflexivity|]; intros x; rewrite Hin; split;
      [intros (m' & h' & Hm & Hk & Hne & ->); exists m', h'; cbn [In]; auto
      |intros (m' & h' & [<-|Hm] & Hk & Hne & ->); [rewrite Ek in Hk|exists m', h'; auto];
       try discriminate Hk; injection Hk as <-; congruence].
    eexists. split; [reflexivity|]. intros x. cbn [In]. rewrite Hin. split.
    + intros [<-|(m' & h' & Hm & Hk & Hne & ->)].
      * exists m, (p :: h). auto.
      * exists m', h'. auto.
    + intros (m' & h' & [<-|Hm] & Hk & Hne & ->).
      * left. rewrite Ek in Hk. injection Hk as <-. reflexivity.
      * right. exists m', h'. auto.
Qed.

(** ** C1: findByGeoWithExcessCapacity *)

Lemma findByGeoWithExcessCapacity_eq lat lng radius u w :
  exists k1 k2 t1 t2,
    k1 = String.append (key_prefix +:+ ":tmp:") t1 /\
    k2 = String.append (key_prefix +:+ ":tmp:") t2 /\
    findByGeoWithExcessCapacity lat lng radius u w =
      bind (send (ZRANGEBYSCORE_INF k2 capacityThreshold)) (fun r => lookup_sites (list_reply r))
        (mkWorld (fst (exec_batch (db w)
                   [GEORADIUS getSiteGeoKey (js_ToString lng) (js_ToString lat)
                              (js_ToString radius) (toLowerCase u) (Some k1);
                    ZINTERSTORE k2 [k1; getCapacityRankingKey] [0%Q; 1%Q];
                    EXPIRE k1 30; EXPIRE k2 30]))
                 ({[k2]} ∪ ({[k1]} ∪ tmp_used w))).
Proof.
  unfold findByGeoWithExcessCapacity, bind at 1.
  destruct (getTemporaryKey_spec w) as (k1 & t1 & E1 & _ & _ & Ht1).
  rewrite E1. unfold bind at 1.
  destruct (getTemporaryKey_spec (mkWorld (db w) ({[k1]} ∪ tmp_used w)))
    as (k2 & t2 & E2 & _ & _ & Ht2).
  rewrite E2. cbn [db tmp_used] in *. unfold bind at 1. rewrite batch_eq. cbn [db tmp_used].
  exists k1, k2, t1, t2. split; [exact Ht1|]. split; [exact Ht2|]. reflexivity.
Qed.

(** C1.  In a store where the geo key holds a sorted set, the capacity key
    holds one or is absent, and no site hash key holds a sorted set, and for
    a unit and arguments the store accepts: findByGeoWithExcessCapacity
    returns, decoded, the hash of each member that lies within the radius in
    the geo set and whose score in the capacity set is at least 0.2, and of
    no other member.  The score the threshold is compared with is the
    capacity score: in the intersection with weights 0 and 1 each member's
    score equals its score in the second set. *)
Theorem findByGeoWithExcessCapacity_spec lat lng radius u w zg zc f :
  kv (db w) !! getSiteGeoKey = Some (RZSet zg) ->
  get_zset (db w) getCapacityRankingKey = Ok zc ->
  unit_factor (toLowerCase u) = Some f ->
  geo_args_ok (js_ToString lng) (js_ToString lat) (js_ToString radius) = true ->
  (forall m z, kv (db w) !! getSiteHashKey (JStr m) <> Some (RZSet z)) ->
  (forall z1 z2 m sc, In (m, sc) (zinter2 0 1 z1 z2) ->
     exists q, zs_score z2 m = Some q /\ (sc == q)%Q) /\
  exists sites,
    snd (findByGeoWithExcessCapacity lat lng radius u w) = Ok sites /\
    forall x, In x sites <->
      exists m h,
        (exists sg, In (m, sg) zg /\
           geo_within sg (js_ToString lng) (js_ToString lat) (js_ToString radius) f = true) /\
        (exists q, zs_score zc m = Some q /\ (capacityThreshold <= q)%Q) /\
        kv (db w) !! getSiteHashKey (JStr m) = Some (RHash h) /\ h <> [] /\
        x = remap (hash_to_obj h).
Proof.
  intros Hgeo Hcap Hunit Hargs Hsites.
  split; [exact zinter2_0_1_score|].
  destruct (findByGeoWithExcessCapacity_eq lat lng radius u w)
    as (k1 & k2 & t1 & t2 & Ht1 & Ht2 & E).
  rewrite E. clear E.
  rewrite !exec_batch_cons_fst. cbn [exec_batch fst].
  set (found := List.filter (fun p => geo_within (snd p) (js_ToString lng) (js_ToString lat)
                                        (js_ToString radius) f) zg).
  assert (E1 : exec_cmd (db w) (GEORADIUS getSiteGeoKey (js_ToString lng) (js_ToString lat)
                                   (js_ToString radius) (toLowerCase u) (Some k1)) =
               store_result (db w) k1 found)
    by (cbn [exec_cmd]; rewrite Hgeo, Hunit, Hargs; reflexivity).
  rewrite E1.
  set (s1 := fst (store_result (db w) k1 found)).
  assert (Hk1cap : getCapacityRankingKey <> k1)
    by (intros H; symmetry in H; rewrite Ht1 in H; exact (tmp_key_not_capacity _ H)).
  assert (G1 : get_zset s1 k1 = Ok found) by apply get_zset_store_result.
  assert (G2 : get_zset s1 getCapacityRankingKey = Ok zc)
    by (rewrite get_zset_same_kv with (s := db w);
        [exact Hcap | apply store_result_other, Hk1cap]).
  assert (E2 : exec_cmd s1 (ZINTERSTORE k2 [k1; getCapacityRankingKey] [0%Q; 1%Q]) =
               store_result s1 k2 (zinter2 0 1 found zc))
    by (cbn [exec_cmd]; rewrite G1, G2; reflexivity).
  rewrite E2.
  set (s2 := fst (store_result s1 k2 (zinter2 0 1 found zc))).
  set (s4 := fst (exec_cmd (fst (exec_cmd s2 (EXPIRE k1 30))) (EXPIRE k2 30))).
  assert (Hkv4 : kv s4 = kv s2) by (unfold s4; rewrite !exec_expire_kv; reflexivity).
  assert (G4 : get_zset s4 k2 = Ok (zinter2 0 1 found zc)).
  { rewrite get_zset_same_kv with (s := s2) by (rewrite Hkv4; reflexivity).
    apply get_zset_store_result. }
  set (ids := map fst (List.filter (fun p => Qle_bool capacityThreshold (snd p))
                                   (zinter2 0 1 found zc))).
  assert (Hsend : send (ZRANGEBYSCORE_INF k2 capacityThreshold)
                    (mkWorld s4 ({[k2]} ∪ ({[k1]} ∪ tmp_used w))) =
                  (mkWorld s4 ({[k2]} ∪ ({[k1]} ∪ tmp_used w)), Ok (RList ids)))
    by (unfold send; cbn [db tmp_used exec_cmd]; rewrite G4; reflexivity).
  (* the site hash keys are the same in s4 as before the call *)
  assert (Hsame : forall m, kv s4 !! getSiteHashKey (JStr m) = kv (db w) !! getSiteHashKey (JStr m)).
  { intros m. rewrite Hkv4.
    assert (N1 : getSiteHashKey (JStr m) <> k1)
      by (intros H; symmetry in H; rewrite Ht1 in H; exact (tmp_key_not_site _ _ H)).
    assert (N2 : getSiteHashKey (JStr m) <> k2)
      by (intros H; symmetry in H; rewrite Ht2 in H; exact (tmp_key_not_site _ _ H)).
    unfold s2. rewrite (proj1 (store_result_other _ _ _ _ N2)).
    unfold s1. rewrite (proj1 (store_result_other _ _ _ _ N1)). reflexivity. }
  destruct (lookup_sites_ok ids s4 ({[k2]} ∪ ({[k1]} ∪ tmp_used w)))
    as (sites & Hl & Hin).
  { intros m z. rewrite Hsame. apply Hsites. }
  exists sites. unfold bind. rewrite Hsend. cbn [list_reply]. rewrite Hl.
  split; [reflexivity|].
  intros x. rewrite Hin. split.
  - intros (m & h & Hm & Hk & Hne & ->). exists m, h.
    rewrite Hsame in Hk. split; [|split; [|auto]].
    + unfold ids in Hm. apply in_map_iff in Hm as ([m' sc] & Hm' & Hf). cbn in Hm'. subst m'.
      apply filter_In in Hf as [Hi _].
      destruct (in_zinter2 _ _ _ _ _ _ Hi) as (sg & q & Hg & _ & _).
      unfold found in Hg. apply filter_In in Hg as [Hg Hw]. exists sg. auto.
    + unfold ids in Hm. apply in_map_iff in Hm as ([m' sc] & Hm' & Hf). cbn in Hm'. subst m'.
      apply filter_In in Hf as [Hi Hth]. cbn [snd] in Hth.
      destruct (zinter2_0_1_score _ _ _ _ Hi) as (q & Hq & Hsc).
      exists q. split; [exact Hq|]. apply Qle_bool_iff in Hth. rewrite <- Hsc. exact Hth.
  - intros (m & h & (sg & Hg & Hw) & (q & Hq & Hth) & Hk & Hne & ->).
    exists m, h. rewrite Hsame. split; [|auto].
    assert (Hf : In (m, sg) found) by (apply filter_In; auto).
    pose proof (key_zinter2 0 1 found zc m sg q Hf Hq) as Hkey.
    apply in_map_iff in Hkey as ([m' sc] & Hm' & Hi). cbn in Hm'. subst m'.
    destruct (zinter2_0_1_score _ _ _ _ Hi) as (q' & Hq' & Hsc).
    rewrite Hq in Hq'. injection Hq' as <-.
    unfold ids. apply in_map_iff. exists (m, sc). split; [reflexivity|].
    apply filter_In. split; [exact Hi|]. cbn [snd]. apply Qle_bool_iff. rewrite Hsc. exact Hth.
Qed.

(** ** C5: findAll *)

Lemma findAll_batch s ids :
  (forall m z, kv s !! getSiteHashKey (JStr m) <> Some (RZSet z)) ->
  exec_batch s (map (fun siteId => HGETALL (getSiteHashKey (JStr siteId))) ids) =
  (s, map (fun m => Ok (RHashReply (match kv s !! getSiteHashKey (JStr m) with
                                     | Some (RHash h) => h
                                     | _ => []
                                     end))) ids).
Proof.
  intros Hty. induction ids as [|m ids IH]; [reflexivity|].
  cbn [map exec_batch exec_cmd].
  destruct (kv s !! getSiteHashKey (JStr m)) as [[h|z]|] eqn:E.
  - rewrite IH. reflexivity.
  - exfalso. exact (Hty m z E).
  - rewrite IH. reflexivity.
Qed.

Lemma sites_of_hashes s ids :
  sites_of_results
    (map (fun m => Ok (RHashReply (match kv s !! getSiteHashKey (JStr m) with
                                   | Some (RHash h) => h
                                   | _ => []
                                   end))) ids) =
  flat_map (fun m => match kv s !! getSiteHashKey (JStr m) with
                     | Some (RHash ((_ :: _) as h)) => [remap (hash_to_obj h)]
                     | _ => []
                     end) ids.
Proof.
  induction ids as [|m ids IH]; [reflexivity|].
  cbn [map sites_of_results flat_map]. rewrite IH.
  destruct (kv s !! getSiteHashKey (JStr m)) as [[[|p h]|z]|]; reflexivity.
Qed.

Lemma findAll_value w zg :
  get_zset (db w) getSiteGeoKey = Ok zg ->
  (forall m z, kv (db w) !! getSiteHashKey (JStr m) <> Some (RZSet z)) ->
  findAll w =
  (w, Ok (flat_map (fun m => match kv (db w) !! getSiteHashKey (JStr m) with
                             | Some (RHash ((_ :: _) as h)) => [remap (hash_to_obj h)]
                             | _ => []
                             end) (map fst zg))).
Proof.
  intros Hg Hty. unfold findAll, bind, send, batch, ret. cbn [exec_cmd]. rewrite Hg.
  cbn [db tmp_used list_reply]. rewrite findAll_batch by exact Hty.
  rewrite sites_of_hashes, world_eta. reflexivity.
Qed.

Lemma hash_set_app h f v : ~ In f (map fst h) -> hash_set h f v = h ++ [(f, v)].
Proof.
  induction h as [|[f' v'] h IH]; intros Hn; [reflexivity|].
  cbn [map fst In] in Hn. cbn [hash_set].
  destruct (String.eqb f f') eqn:E.
  - apply String.eqb_eq in E. subst f'. exfalso. apply Hn. left. reflexivity.
  - rewrite IH by tauto. reflexivity.
Qed.

Lemma hash_merge_app h l : List.NoDup (map fst (h ++ l)) -> hash_merge h l = h ++ l.
Proof.
  unfold hash_merge. revert h. induction l as [|p l IH]; intros h Hnd.
  - rewrite app_nil_r. reflexivity.
  - cbn [fold_left]. rewrite hash_set_app.
    + destruct p as [f v]. cbn [fst snd].
      rewrite IH; [rewrite <- app_assoc; reflexivity|].
      rewrite <- app_assoc. exact Hnd.
    + rewrite map_app in Hnd. cbn [map] in Hnd. apply NoDup_remove_2 in Hnd.
      intros Hin. apply Hnd. apply in_or_app. left. exact Hin.
Qed.

Lemma append_inj p a b : String.append p a = String.append p b -> a = b.
Proof.
  induction p as [|c p IH]; cbn; [tauto|]. intros H. injection H as H. exact (IH H).
Qed.

Lemma siteHashKey_inj a b :
  getSiteHashKey a = getSiteHashKey b -> js_ToString a = js_ToString b.
Proof. unfold getSiteHashKey. intros H. exact (append_inj _ _ _ (append_inj _ _ _ H)). Qed.

Lemma keys_zs_ins p z : Permutation (map fst (zs_ins p z)) (fst p :: map fst z).
Proof.
  induction z as [|q z IH]; [reflexivity|]. cbn [zs_ins].
  destruct (zlt p q); [reflexivity|]. cbn [map].
  rewrite IH. apply perm_swap.
Qed.

Lemma zs_remove_absent m z : ~ In m (map fst z) -> zs_remove m z = z.
Proof.
  unfold zs_remove. induction z as [|[m1 s1] z IH]; intros Hn; [reflexivity|].
  cbn [map fst In] in Hn. cbn [List.filter fst].
  destruct (String.eqb m1 m) eqn:E.
  - apply String.eqb_eq in E. subst m1. exfalso. tauto.
  - cbn [negb]. rewrite IH by tauto. reflexivity.
Qed.

Lemma keys_zs_add_new m sc z :
  ~ In m (map fst z) -> Permutation (map fst (zs_add m sc z)) (map fst z ++ [m]).
Proof.
  intros Hn. unfold zs_add. rewrite zs_remove_absent by exact Hn.
  rewrite keys_zs_ins. cbn [fst]. apply Permutation_cons_append.
Qed.

Lemma insert_ok_world site w w' k :
  insert site w = (w', Ok k) ->
  exists fl sc z h0,
    flatten site = Ok fl /\ serialize fl <> [] /\
    get_zset (db w) getSiteGeoKey = Ok z /\
    (kv (db w) !! getSiteHashKey (get_field site "id") = None -> h0 = []) /\
    w' = mkWorld
           (mkStore (<[getSiteGeoKey := RZSet (zs_add (js_ToString (get_field site "id")) sc z)]>
                       (<[getSiteHashKey (get_field site "id") := RHash (hash_merge h0 (serialize fl))]>
                          (kv (db w))))
                    (ttl (db w)))
           (tmp_used w).
Proof.
  intros Hins. unfold insert, bind, lift, send, throw, ret in Hins.
  set (key := getSiteHashKey (get_field site "id")) in *.
  destruct (flatten site) as [fl|e] eqn:Ef; [|discriminate Hins].
  destruct (exec_cmd (db w) (HMSET key (serialize fl))) as [s1 r1] eqn:E1.
  destruct r1 as [r1|e]; [|discriminate Hins].
  assert (Hs1 : serialize fl <> [] /\ exists h0,
            (kv (db w) !! key = None -> h0 = []) /\
            s1 = mkStore (<[key := RHash (hash_merge h0 (serialize fl))]> (kv (db w))) (ttl (db w))).
  { cbn [exec_cmd] in E1. destruct (serialize fl) as [|p ps]; [discriminate E1|].
    split; [discriminate|].
    destruct (kv (db w) !! key) as [[h0|z]|] eqn:Ek; unfold wrongtype in E1;
      [| discriminate E1 |]; injection E1 as <- _.
    - exists h0. split; [discriminate|reflexivity].
    - exists []. split; reflexivity. }
  destruct Hs1 as (Hne & h0 & Hh0 & ->).
  destruct (negb (hasOwnProperty site "coordinate")); [discriminate Hins|].
  destruct (prop (get_field site "coordinate") "lng") as [lng|e] eqn:Elng;
    [|discriminate Hins].
  destruct (prop (get_field site "coordinate") "lat") as [lat|e] eqn:Elat;
    [|discriminate Hins].
  cbn [db tmp_used] in Hins.
  destruct (exec_cmd _ (GEOADD getSiteGeoKey (js_ToString lng) (js_ToString lat)
                          (js_ToString (get_field site "id")))) as [s2 r2] eqn:E2.
  destruct r2 as [r2|e]; [|discriminate Hins].
  injection Hins as <- _.
  cbn [exec_cmd] in E2.
  destruct (geoencode (js_ToString lng) (js_ToString lat)) as [sc|] eqn:Eg;
    [|injection E2 as _ E2; discriminate E2].
  assert (Hgz : get_zset (mkStore (<[key := RHash (hash_merge h0 (serialize fl))]> (kv (db w)))
                                  (ttl (db w))) getSiteGeoKey = get_zset (db w) getSiteGeoKey).
  { apply get_zset_same_kv. cbn [kv]. apply lookup_insert_ne. apply siteHashKey_not_geo. }
  rewrite Hgz in E2.
  destruct (get_zset (db w) getSiteGeoKey) as [z|e] eqn:Ez;
    [|injection E2 as _ E2; discriminate E2].
  injection E2 as <- _.
  exists fl, sc, z, h0. repeat split; auto.
Qed.

Lemma sites_stored_typed dn w :
  sites_stored dn w -> forall m z, kv (db w) !! getSiteHashKey (JStr m) <> Some (RZSet z).
Proof.
  intros (_ & Hk & Hh) m z E.
  destruct (Hk _ _ E) as [Hg | (site & Hin & Heq)].
  - exact (siteHashKey_not_geo _ Hg).
  - destruct (Hh site Hin) as (fl & _ & _ & E'). rewrite <- Heq, E in E'. discriminate.
Qed.

Lemma sites_stored_nil : sites_stored [] empty_world.
Proof.
  split; [|split].
  - exists []. split; [|constructor].
    unfold get_zset. cbn [empty_world db kv]. rewrite lookup_empty. reflexivity.
  - intros k r H. cbn [empty_world db kv] in H. rewrite lookup_empty in H. discriminate.
  - intros site [].
Qed.

Lemma sites_stored_insert dn site w w' k :
  sites_stored dn w ->
  ~ In (js_ToString (get_field site "id"))
       (map (fun site => js_ToString (get_field site "id")) dn) ->
  List.NoDup (map fst site) ->
  insert site w = (w', Ok k) ->
  sites_stored (dn ++ [site]) w'.
Proof.
  intros (Hz & Hk & Hh) Hnew Hnd Hins.
  destruct (insert_ok_world site w w' k Hins) as (fl & sc & z & h0 & Ef & Hne & Ez & Hh0 & ->).
  assert (HKabs : kv (db w) !! getSiteHashKey (get_field site "id") = None).
  { destruct (kv (db w) !! getSiteHashKey (get_field site "id")) as [r|] eqn:E; [|reflexivity].
    exfalso. destruct (Hk _ _ E) as [Hg | (site' & Hin & Heq)].
    - exact (siteHashKey_not_geo _ Hg).
    - apply Hnew. apply siteHashKey_inj in Heq. rewrite Heq. apply in_map_iff.
      exists site'. auto. }
  rewrite (Hh0 HKabs).
  rewrite hash_merge_app
    by (cbn [app]; rewrite map_fst_serialize; exact (nodup_flatten site fl Hnd Ef)).
  cbn [app].
  destruct Hz as (z0 & Ez0 & Hp). rewrite Ez in Ez0. injection Ez0 as <-.
  split; [|split].
  - exists (zs_add (js_ToString (get_field site "id")) sc z). split.
    + unfold get_zset. cbn [db kv]. rewrite lookup_insert_eq. reflexivity.
    + rewrite keys_zs_add_new.
      * rewrite map_app. cbn [map]. apply Permutation_app_tail. exact Hp.
      * intros Hin. apply Hnew. exact (Permutation_in _ Hp Hin).
  - intros k' r. cbn [db kv].
    destruct (decide (k' = getSiteGeoKey)) as [->|Hg]; [left; reflexivity|].
    rewrite lookup_insert_ne by congruence.
    destruct (decide (k' = getSiteHashKey (get_field site "id"))) as [->|HK].
    + intros _. right. exists site. split; [|reflexivity].
      apply in_or_app. right. left. reflexivity.
    + rewrite lookup_insert_ne by congruence. intros E.
      destruct (Hk _ _ E) as [? | (site' & Hin & Heq)]; [left; assumption|].
      right. exists site'. split; [apply in_or_app; left; exact Hin | exact Heq].
  - intros site' Hin. apply in_app_or in Hin as [Hin | [<- | []]].
    + destruct (Hh site' Hin) as (fl' & Ef' & Hne' & E').
      exists fl'. split; [exact Ef'|]. split; [exact Hne'|]. cbn [db kv].
      rewrite lookup_insert_ne by (intros H; symmetry in H; exact (siteHashKey_not_geo _ H)).
      rewrite lookup_insert_ne; [exact E'|].
      intros Heq. apply siteHashKey_inj in Heq. apply Hnew. rewrite Heq.
      apply in_map_iff. exists site'. auto.
    + exists fl. split; [exact Ef|]. split; [exact Hne|]. cbn [db kv].
      rewrite lookup_insert_ne by (intros H; symmetry in H; exact (siteHashKey_not_geo _ H)).
      apply lookup_insert_eq.
Qed.

Lemma insert_each_stored sites : forall dn w w' ks,
  sites_stored dn w ->
  List.NoDup (map (fun site => js_ToString (get_field site "id")) (dn ++ sites)) ->
  Forall (fun site => List.NoDup (map fst site)) sites ->
  insert_each sites w = (w', Ok ks) ->
  sites_stored (dn ++ sites) w'.
Proof.
  induction sites as [|site sites IH]; intros dn w w' ks Hs Hnd Hf Hins.
  - cbn [insert_each] in Hins. unfold ret in Hins. injection Hins as <- _.
    rewrite app_nil_r. exact Hs.
  - cbn [insert_each] in Hins. unfold bind, ret in Hins.
    destruct (insert site w) as [w1 [k|e]] eqn:E1; [|discriminate Hins].
    destruct (insert_each sites w1) as [w2 [ks'|e]] eqn:E2; [|discriminate Hins].
    injection Hins as <- _.
    assert (Hnew : ~ In (js_ToString (get_field site "id"))
                        (map (fun site => js_ToString (get_field site "id")) dn)).
    { rewrite map_app in Hnd. cbn [map] in Hnd. apply NoDup_remove_2 in Hnd.
      intros Hin. apply Hnd. apply in_or_app. left. exact Hin. }
    replace (dn ++ site :: sites) with ((dn ++ [site]) ++ sites) in *
      by (rewrite <- app_assoc; reflexivity).
    apply (IH (dn ++ [site]) w1 w2 ks'); [| exact Hnd | exact (Forall_inv_tail Hf) | exact E2].
    exact (sites_stored_insert dn site w w1 k Hs Hnew (Forall_inv Hf) E1).
Qed.

(** C5.  On a store whose geo key holds a sorted set (or nothing) and whose
    site hash keys hold no sorted set, findAll leaves the store alone and
    returns, in the order of the geo set, the decoded hash of each member
    whose hash exists and is not empty, skipping the others.  After sites
    with distinct ids (as strings) are inserted one by one into an empty
    store, every insert returning normally, findAll returns each of them
    exactly once, as the site's round trip through the codec, in some
    order. *)
Theorem findAll_spec :
  (forall w zg,
     get_zset (db w) getSiteGeoKey = Ok zg ->
     (forall m z, kv (db w) !! getSiteHashKey (JStr m) <> Some (RZSet z)) ->
     findAll w =
     (w, Ok (flat_map (fun m => match kv (db w) !! getSiteHashKey (JStr m) with
                                | Some (RHash ((_ :: _) as h)) => [remap (hash_to_obj h)]
                                | _ => []
                                end) (map fst zg)))) /\
  (forall sites w' ks,
     List.NoDup (map (fun site => js_ToString (get_field site "id")) sites) ->
     Forall (fun site => List.NoDup (map fst site)) sites ->
     insert_each sites empty_world = (w', Ok ks) ->
     exists res, findAll w' = (w', Ok res) /\
       Permutation (map Ok res) (map site_roundtrip sites)).
Proof.
  split; [exact findAll_value|].
  intros sites w' ks Hnd Hf Hins.
  pose proof (insert_each_stored sites [] empty_world w' ks sites_stored_nil Hnd Hf Hins) as Hs.
  cbn [app] in Hs.
  pose proof (sites_stored_typed _ _ Hs) as Hty.
  destruct Hs as ((z & Ez & Hp) & _ & Hh).
  eexists. split; [exact (findAll_value w' z Ez Hty)|].
  eapply Permutation_trans; [apply Permutation_map; apply Permutation_flat_map; exact Hp|].
  clear - Hh. induction sites as [|site sites IH]; [reflexivity|].
  cbn [map flat_map].
  destruct (Hh site (or_introl eq_refl)) as (fl & Ef & Hne & E).
  change (getSiteHashKey (JStr (js_ToString (get_field site "id"))))
    with (getSiteHashKey (get_field site "id")).
  rewrite E.
  destruct (serialize fl) as [|p ps] eqn:Es; [contradiction|].
  assert (Hr : site_roundtrip site = Ok (remap (hash_to_obj (p :: ps))))
    by (unfold site_roundtrip; rewrite Ef; cbn [jsres_bind]; rewrite Es; reflexivity).
  cbn [app map]. rewrite Hr. apply perm_skip. apply IH. intros s' Hin. apply Hh. right. exact Hin.
Qed.

(** * Further properties of the DAO *)

(** ** The codec *)

(** X1.  [flatten] of a site whose coordinate is an object copies the
    coordinate's [lat] and [lng] up to the top level, drops [coordinate], and
    keeps every other field of the site as it is. *)
Lemma flatten_coordinate site co :
  get_field site "coordinate" = JObj co ->
  exists f, flatten site = Ok f /\
    obj_get f "lat" = Some (get_field co "lat") /\
    obj_get f "lng" = Some (get_field co "lng") /\
    obj_get f "coordinate" = None /\
    forall k, k <> "lat" -> k <> "lng" -> k <> "coordinate" -> obj_get f k = obj_get site k.
Proof.
  intros Hc. unfold flatten, hasOwnProperty.
  rewrite (get_field_obj _ _ _ Hc), Hc. cbn [prop jsres_bind].
  rewrite get_field_set. cbn [String.eqb Ascii.eqb Bool.eqb]. rewrite Hc. cbn [prop jsres_bind].
  eexists. split; [reflexivity|].
  split; [obj_simpl; reflexivity|]. split; [obj_simpl; reflexivity|].
  split; [obj_simpl; reflexivity|].
  intros k Hlat Hlng Hco.
  apply String.eqb_neq in Hlat, Hlng, Hco.
  rewrite !obj_get_del, !obj_get_set, Hco, Hlng, Hlat. reflexivity.
Qed.

(** X2.  A site whose [coordinate] field is [null] or [undefined] makes
    [flatten] throw a TypeError, so insert rejects before it sends anything:
    the store is left as it was. *)
Lemma insert_null_coordinate site w :
  hasOwnProperty site "coordinate" = true ->
  get_field site "coordinate" = JNull \/ get_field site "coordinate" = JUndef ->
  insert site w = (w, Throw TypeError).
Proof.
  intros Hown Hc. unfold insert, bind, lift, flatten. rewrite Hown.
  destruct Hc as [E|E]; rewrite E; reflexivity.
Qed.

(** X3.  [remap] keeps every field of the hash other than [id], [panels],
    [capacity], [lat], [lng] and [coordinate] as it is, and always gives
    [id], [panels] and [capacity] a number. *)
Lemma remap_fields h :
  (forall k, k <> "id" -> k <> "panels" -> k <> "capacity" -> k <> "lat" -> k <> "lng" ->
     k <> "coordinate" -> obj_get (remap h) k = obj_get h k) /\
  (exists i p c, obj_get (remap h) "id" = Some (JNum i) /\
     obj_get (remap h) "panels" = Some (JNum p) /\ obj_get (remap h) "capacity" = Some (JNum c)).
Proof.
  split.
  - intros k Hi Hp Hc Hla Hln Hco.
    apply String.eqb_neq in Hi, Hp, Hc, Hla, Hln, Hco.
    unfold remap. destruct (hasOwnProperty h "lat" && hasOwnProperty h "lng");
      rewrite ?obj_get_del, ?obj_get_set, ?Hi, ?Hp, ?Hc, ?Hla, ?Hln, ?Hco; reflexivity.
  - unfold remap. do 3 eexists.
    destruct (hasOwnProperty h "lat" && hasOwnProperty h "lng"); obj_simpl;
      (split; [reflexivity|]); (split; reflexivity).
Qed.

(** ** Insert *)

Lemma hash_set_same h f v : obj_get (hash_to_obj h) f = Some (JStr v) -> hash_set h f v = h.
Proof.
  induction h as [|[f' v'] h IH]; cbn [hash_to_obj map obj_get fst snd hash_set]; [discriminate|].
  destruct (String.eqb f f') eqn:E.
  - apply String.eqb_eq in E. subst f'. intros [= ->]. reflexivity.
  - intros H. rewrite (IH H). reflexivity.
Qed.

Lemma hash_merge_same h l :
  (forall f v, In (f, v) l -> obj_get (hash_to_obj h) f = Some (JStr v)) -> hash_merge h l = h.
Proof.
  unfold hash_merge. induction l as [|[f v] l IH]; intros H; [reflexivity|].
  cbn [fold_left fst snd]. rewrite hash_set_same by (apply H; left; reflexivity).
  apply IH. intros f' v' Hin. apply H. right. exact Hin.
Qed.

Lemma obj_get_hash_in l f v :
  List.NoDup (map fst l) -> In (f, v) l -> obj_get (hash_to_obj l) f = Some (JStr v).
Proof.
  induction l as [|[f' v'] l IH]; [intros _ []|].
  cbn [map fst]. intros Hnd Hin. apply NoDup_cons_iff in Hnd as [Hn Hnd].
  cbn [hash_to_obj map obj_get fst snd]. destruct Hin as [[= <- <-]|Hin].
  - rewrite String.eqb_refl. reflexivity.
  - destruct (String.eqb f f') eqn:E.
    + apply String.eqb_eq in E. subst f'. exfalso. apply Hn.
      apply in_map_iff. exists (f, v). auto.
    + exact (IH Hnd Hin).
Qed.

Lemma hash_merge_twice h l :
  List.NoDup (map fst l) -> hash_merge (hash_merge h l) l = hash_merge h l.
Proof.
  intros Hnd. apply hash_merge_same. intros f v Hin.
  rewrite hash_merge_get by exact Hnd. rewrite (obj_get_hash_in l f v Hnd Hin). reflexivity.
Qed.

Lemma zs_remove_ins m sc z : zs_remove m (zs_ins (m, sc) z) = zs_remove m z.
Proof.
  unfold zs_remove. induction z as [|q z IH]; cbn [zs_ins List.filter fst].
  - rewrite String.eqb_refl. reflexivity.
  - destruct (zlt (m, sc) q); cbn [List.filter fst]; rewrite ?String.eqb_refl; cbn [negb].
    + reflexivity.
    + destruct (negb (String.eqb (fst q) m)); rewrite IH; reflexivity.
Qed.

Lemma zs_remove_twice m z : zs_remove m (zs_remove m z) = zs_remove m z.
Proof.
  unfold zs_remove. induction z as [|q z IH]; [reflexivity|]. cbn [List.filter].
  destruct (negb (String.eqb (fst q) m)) eqn:E; cbn [List.filter]; rewrite ?E, IH; reflexivity.
Qed.

Lemma zs_add_twice m sc z : zs_add m sc (zs_add m sc z) = zs_add m sc z.
Proof. unfold zs_add. rewrite zs_remove_ins, zs_remove_twice. reflexivity. Qed.

(** Insert run forward, from what it computes. *)
Lemma insert_run site w fl lng lat sc h z :
  flatten site = Ok fl -> serialize fl <> [] ->
  hasOwnProperty site "coordinate" = true ->
  prop (get_field site "coordinate") "lng" = Ok lng ->
  prop (get_field site "coordinate") "lat" = Ok lat ->
  geoencode (js_ToString lng) (js_ToString lat) = Some sc ->
  kv (db w) !! getSiteHashKey (get_field site "id") = Some (RHash h) \/
    (kv (db w) !! getSiteHashKey (get_field site "id") = None /\ h = []) ->
  get_zset (db w) getSiteGeoKey = Ok z ->
  insert site w =
  (mkWorld
     (mkStore (<[getSiteGeoKey := RZSet (zs_add (js_ToString (get_field site "id")) sc z)]>
                 (<[getSiteHashKey (get_field site "id") := RHash (hash_merge h (serialize fl))]>
                    (kv (db w))))
              (ttl (db w)))
     (tmp_used w),
   Ok (getSiteHashKey (get_field site "id"))).
Proof.
  intros Ef Hne Hown Elng Elat Eg Hk Ez.
  unfold insert, bind, lift, send, throw, ret. rewrite Ef.
  set (key := getSiteHashKey (get_field site "id")) in *.
  assert (E1 : exec_cmd (db w) (HMSET key (serialize fl)) =
               (write_key (db w) key (RHash (hash_merge h (serialize fl))), Ok ROk)).
  { cbn [exec_cmd]. destruct (serialize fl) as [|p ps]; [contradiction|].
    destruct Hk as [Hk|[Hk ->]]; rewrite Hk; reflexivity. }
  rewrite E1. cbn [db tmp_used]. rewrite Hown. cbn [negb]. rewrite Elng, Elat.
  cbn [db tmp_used exec_cmd]. rewrite Eg.
  assert (Hgz : get_zset (write_key (db w) key (RHash (hash_merge h (serialize fl)))) getSiteGeoKey
                = Ok z).
  { rewrite <- Ez. apply get_zset_same_kv. cbn [write_key kv].
    apply lookup_insert_ne. apply siteHashKey_not_geo. }
  rewrite Hgz. reflexivity.
Qed.

(** A normal return of insert: what it computed on the way. *)
Lemma insert_ok_facts site w w' k :
  insert site w = (w', Ok k) ->
  exists fl lng lat sc h z,
    flatten site = Ok fl /\ serialize fl <> [] /\
    hasOwnProperty site "coordinate" = true /\
    prop (get_field site "coordinate") "lng" = Ok lng /\
    prop (get_field site "coordinate") "lat" = Ok lat /\
    geoencode (js_ToString lng) (js_ToString lat) = Some sc /\
    (kv (db w) !! getSiteHashKey (get_field site "id") = Some (RHash h) \/
      (kv (db w) !! getSiteHashKey (get_field site "id") = None /\ h = [])) /\
    get_zset (db w) getSiteGeoKey = Ok z.
Proof.
  intros Hins. unfold insert, bind, lift, send, throw, ret in Hins.
  set (key := getSiteHashKey (get_field site "id")) in *.
  destruct (flatten site) as [fl|e] eqn:Ef; [|discriminate Hins].
  destruct (exec_cmd (db w) (HMSET key (serialize fl))) as [s1 r1] eqn:E1.
  destruct r1 as [r1|e]; [|discriminate Hins].
  assert (Hs1 : serialize fl <> [] /\ exists h,
            (kv (db w) !! key = Some (RHash h) \/ (kv (db w) !! key = None /\ h = [])) /\
            s1 = write_key (db w) key (RHash (hash_merge h (serialize fl)))).
  { cbn [exec_cmd] in E1. destruct (serialize fl) as [|p ps]; [discriminate E1|].
    split; [discriminate|].
    destruct (kv (db w) !! key) as [[h0|z]|] eqn:Ek; unfold wrongtype in E1;
      [| discriminate E1 |]; injection E1 as <- _.
    - exists h0. split; [left; reflexivity|reflexivity].
    - exists []. split; [right; split; reflexivity|reflexivity]. }
  destruct Hs1 as (Hne & h & Hk & ->).
  destruct (hasOwnProperty site "coordinate") eqn:Hown; cbn [negb] in Hins; [|discriminate Hins].
  destruct (prop (get_field site "coordinate") "lng") as [lng|e] eqn:Elng;
    [|discriminate Hins].
  destruct (prop (get_field site "coordinate") "lat") as [lat|e] eqn:Elat;
    [|discriminate Hins].
  cbn [db tmp_used] in Hins.
  destruct (exec_cmd _ (GEOADD getSiteGeoKey (js_ToString lng) (js_ToString lat)
                          (js_ToString (get_field site "id")))) as [s2 r2] eqn:E2.
  destruct r2 as [r2|e]; [|discriminate Hins].
  cbn [exec_cmd] in E2.
  destruct (geoencode (js_ToString lng) (js_ToString lat)) as [sc|] eqn:Eg;
    [|injection E2 as _ E2; discriminate E2].
  assert (Hgz : get_zset (write_key (db w) key (RHash (hash_merge h (serialize fl)))) getSiteGeoKey
                = get_zset (db w) getSiteGeoKey).
  { apply get_zset_same_kv. cbn [write_key kv].
    apply lookup_insert_ne. apply siteHashKey_not_geo. }
  rewrite Hgz in E2.
  destruct (get_zset (db w) getSiteGeoKey) as [z|e] eqn:Ez;
    [|injection E2 as _ E2; discriminate E2].
  exists fl, lng, lat, sc, h, z. repeat split; assumption.
Qed.

(** X4.  After insert returns normally for a site whose hash key was free,
    findById with the site's id returns the site's round trip through the
    codec. *)
Lemma insert_then_findById site w w' k :
  List.NoDup (map fst site) ->
  kv (db w) !! getSiteHashKey (get_field site "id") = None ->
  insert site w = (w', Ok k) ->
  exists r, site_roundtrip site = Ok r /\
    findById (get_field site "id") w' = (w', Ok (Some r)).
Proof.
  intros Hnd Hfree Hins.
  destruct (insert_ok_world site w w' k Hins) as (fl & sc & z & h0 & Ef & Hne & Ez & Hh0 & ->).
  rewrite (Hh0 Hfree), hash_merge_app
    by (cbn [app]; rewrite map_fst_serialize; exact (nodup_flatten site fl Hnd Ef)).
  cbn [app].
  exists (remap (hash_to_obj (serialize fl))). split.
  - unfold site_roundtrip. rewrite Ef. reflexivity.
  - unfold findById, hgetallAsync, bind, send, ret. cbn [db tmp_used exec_cmd kv].
    rewrite lookup_insert_ne by (intros H; symmetry in H; exact (siteHashKey_not_geo _ H)).
    rewrite lookup_insert_eq.
    destruct (serialize fl) as [|p ps]; [contradiction|]. reflexivity.
Qed.

(** X5.  Insert is idempotent: inserting a site again right after it was
    inserted leaves the store as it is and returns the same key. *)
Lemma insert_idempotent site w w' k :
  List.NoDup (map fst site) ->
  insert site w = (w', Ok k) ->
  insert site w' = (w', Ok k).
Proof.
  intros Hnd Hins.
  destruct (insert_ok_facts site w w' k Hins)
    as (fl & lng & lat & sc & h & z & Ef & Hne & Hown & Elng & Elat & Eg & Hk & Ez).
  rewrite (insert_run site w fl lng lat sc h z Ef Hne Hown Elng Elat Eg Hk Ez) in Hins.
  injection Hins as <- <-.
  set (key := getSiteHashKey (get_field site "id")) in *.
  set (m := js_ToString (get_field site "id")).
  set (kv1 := <[getSiteGeoKey := RZSet (zs_add m sc z)]>
                (<[key := RHash (hash_merge h (serialize fl))]> (kv (db w)))).
  assert (Hkey : kv1 !! key = Some (RHash (hash_merge h (serialize fl)))).
  { unfold kv1. rewrite lookup_insert_ne by (intros H; symmetry in H; exact (siteHashKey_not_geo _ H)).
    apply lookup_insert_eq. }
  assert (Hgeo : kv1 !! getSiteGeoKey = Some (RZSet (zs_add m sc z)))
    by (unfold kv1; apply lookup_insert_eq).
  rewrite (insert_run site _ fl lng lat sc (hash_merge h (serialize fl)) (zs_add m sc z)
             Ef Hne Hown Elng Elat Eg).
  - cbn [db kv ttl tmp_used]. fold m key kv1.
    rewrite zs_add_twice, hash_merge_twice
      by (rewrite map_fst_serialize; exact (nodup_flatten site fl Hnd Ef)).
    rewrite (insert_id kv1 key _ Hkey). rewrite (insert_id kv1 getSiteGeoKey _ Hgeo).
    reflexivity.
  - left. exact Hkey.
  - unfold get_zset. cbn [db kv]. fold m key kv1. rewrite Hgeo. reflexivity.
Qed.


(** ** The lookups *)

Lemma lookup_sites_value ids s t :
  (forall m z, kv s !! getSiteHashKey (JStr m) <> Some (RZSet z)) ->
  lookup_sites ids (mkWorld s t) =
  (mkWorld s t, Ok (flat_map (fun m => match kv s !! getSiteHashKey (JStr m) with
                                       | Some (RHash ((_ :: _) as h)) => [remap (hash_to_obj h)]
                                       | _ => []
                                       end) ids)).
Proof.
  intros Hs. induction ids as [|m ids IH]; [reflexivity|].
  cbn [lookup_sites flat_map]. unfold bind at 1. rewrite hgetallAsync_value by apply Hs.
  unfold bind. rewrite IH. unfold ret.
  destruct (kv s !! getSiteHashKey (JStr m)) as [[[|p h]|z]|]; reflexivity.
Qed.

Lemma findById_value id s t :
  (forall z, kv s !! getSiteHashKey id <> Some (RZSet z)) ->
  findById id (mkWorld s t) =
  (mkWorld s t, Ok (match kv s !! getSiteHashKey id with
                    | Some (RHash ((_ :: _) as h)) => Some (remap (hash_to_obj h))
                    | _ => None
                    end)).
Proof.
  intros Hk. unfold findById, bind at 1. rewrite hgetallAsync_value by exact Hk. unfold ret.
  destruct (kv s !! getSiteHashKey id) as [[[|p h]|z]|]; reflexivity.
Qed.

(** X6.  On a store whose geo key holds a sorted set and whose site hash
    keys hold no sorted set, for a unit and arguments the store accepts,
    findByGeo leaves the store alone and returns exactly the decoded hashes
    of the members within the radius whose hash exists: members without a
    hash are skipped, not reported as errors. *)
Lemma findByGeo_result lat lng radius u w zg f :
  kv (db w) !! getSiteGeoKey = Some (RZSet zg) ->
  unit_factor (toLowerCase u) = Some f ->
  geo_args_ok (js_ToString lng) (js_ToString lat) (js_ToString radius) = true ->
  (forall m z, kv (db w) !! getSiteHashKey (JStr m) <> Some (RZSet z)) ->
  exists sites, findByGeo lat lng radius u w = (w, Ok sites) /\
    forall x, In x sites <->
      exists m sg h,
        In (m, sg) zg /\
        geo_within sg (js_ToString lng) (js_ToString lat) (js_ToString radius) f = true /\
        kv (db w) !! getSiteHashKey (JStr m) = Some (RHash h) /\ h <> [] /\
        x = remap (hash_to_obj h).
Proof.
  intros Hg Hu Ha Hs. destruct w as [s t]. cbn [db] in *.
  eexists. split.
  - unfold findByGeo, bind, send. cbn [db tmp_used exec_cmd]. rewrite Hg, Hu, Ha.
    cbn [list_reply]. apply lookup_sites_value, Hs.
  - intros x. rewrite in_flat_map. split.
    + intros (m & Hm & Hx). apply in_map_iff in Hm as ([m' sg] & Hm' & Hf).
      cbn [fst] in Hm'. subst m'. apply filter_In in Hf as [Hin Hw]. cbn [snd] in Hw.
      destruct (kv s !! getSiteHashKey (JStr m)) as [[[|p h]|z]|] eqn:Ek;
        cbn [In] in Hx; try contradiction.
      destruct Hx as [<-|[]].
      exists m, sg, (p :: h). repeat split; try assumption. discriminate.
    + intros (m & sg & h & Hin & Hw & Hk & Hne & ->). exists m. split.
      * apply in_map_iff. exists (m, sg). split; [reflexivity|].
        apply filter_In. split; assumption.
      * rewrite Hk. destruct h as [|p h]; [contradiction|]. left. reflexivity.
Qed.

(** X7.  When the geo key holds a sorted set and the lower-cased unit is not
    one the store knows (m, km, ft, mi), findByGeo rejects with the store's
    error and leaves the store alone. *)
Lemma findByGeo_bad_unit lat lng radius u w zg :
  kv (db w) !! getSiteGeoKey = Some (RZSet zg) ->
  unit_factor (toLowerCase u) = None ->
  findByGeo lat lng radius u w = (w, Throw (ReplyError "ERR")).
Proof.
  intros Hg Hu. destruct w as [s t]. cbn [db] in *.
  unfold findByGeo, bind, send. cbn [db tmp_used exec_cmd]. rewrite Hg, Hu. reflexivity.
Qed.

(** X13.  When the geo key is absent (no site was ever inserted), findByGeo
    with a unit the store knows resolves to no site and leaves the store
    alone. *)
Lemma findByGeo_empty_index lat lng radius u w f :
  kv (db w) !! getSiteGeoKey = None ->
  unit_factor (toLowerCase u) = Some f ->
  findByGeo lat lng radius u w = (w, Ok []).
Proof.
  intros Hg _. destruct w as [s t]. cbn [db] in *.
  unfold findByGeo, bind, send. cbn [db tmp_used exec_cmd]. rewrite Hg. reflexivity.
Qed.

(** The two temporary keys of findByGeoWithExcessCapacity with what the key
    generator guarantees of them, and the rest of the call. *)
Lemma findByGeoWithExcessCapacity_keys lat lng radius u w :
  exists k1 k2 t1 t2,
    k1 <> k2 /\ kv (db w) !! k1 = None /\ kv (db w) !! k2 = None /\
    k1 = String.append (key_prefix +:+ ":tmp:") t1 /\
    k2 = String.append (key_prefix +:+ ":tmp:") t2 /\
    findByGeoWithExcessCapacity lat lng radius u w =
      bind (send (ZRANGEBYSCORE_INF k2 capacityThreshold)) (fun r => lookup_sites (list_reply r))
        (mkWorld (fst (exec_batch (db w)
                   [GEORADIUS getSiteGeoKey (js_ToString lng) (js_ToString lat)
                              (js_ToString radius) (toLowerCase u) (Some k1);
                    ZINTERSTORE k2 [k1; getCapacityRankingKey] [0%Q; 1%Q];
                    EXPIRE k1 30; EXPIRE k2 30]))
                 ({[k2]} ∪ ({[k1]} ∪ tmp_used w))).
Proof.
  unfold findByGeoWithExcessCapacity, bind at 1.
  destruct (getTemporaryKey_spec w) as (k1 & t1 & E1 & Hk1 & Hu1 & Ht1).
  rewrite E1. unfold bind at 1.
  destruct (getTemporaryKey_spec (mkWorld (db w) ({[k1]} ∪ tmp_used w)))
    as (k2 & t2 & E2 & Hk2 & Hu2 & Ht2).
  rewrite E2. cbn [db tmp_used] in *. unfold bind at 1. rewrite batch_eq. cbn [db tmp_used].
  assert (H12 : k1 <> k2) by (intros ->; apply Hu2; set_solver).
  exists k1, k2, t1, t2. do 5 (split; [assumption|]). reflexivity.
Qed.

(** The destination of a ZINTERSTORE that was free holds a sorted set or
    nothing afterwards, whether the command succeeded or not. *)
Lemma zinter_dest_zset s d ks ws :
  kv s !! d = None -> exists z, get_zset (fst (exec_cmd s (ZINTERSTORE d ks ws))) d = Ok z.
Proof.
  intros Hd. cbn [exec_cmd].
  assert (H0 : get_zset s d = Ok []) by (unfold get_zset; rewrite Hd; reflexivity).
  destruct ks as [|k1 [|k2 [|]]]; try (exists []; exact H0).
  destruct ws as [|w1 [|w2 [|]]]; try (exists []; exact H0).
  destruct (get_zset s k1), (get_zset s k2); try (exists []; exact H0).
  eexists. apply get_zset_store_result.
Qed.

(** X8.  When the lower-cased unit is not one the store knows,
    findByGeoWithExcessCapacity does not reject: the failing GEORADIUS only
    leaves an error in its slot of the batch, nothing is stored under the
    temporary keys, and the call resolves to no site, whatever the store
    holds. *)
Lemma excess_bad_unit lat lng radius u w :
  unit_factor (toLowerCase u) = None ->
  snd (findByGeoWithExcessCapacity lat lng radius u w) = Ok [].
Proof.
  intros Hu.
  destruct (findByGeoWithExcessCapacity_keys lat lng radius u w)
    as (k1 & k2 & t1 & t2 & H12 & Hk1 & Hk2 & _ & _ & E).
  rewrite E. clear E.
  rewrite !exec_batch_cons_fst. cbn [exec_batch fst].
  assert (E1 : fst (exec_cmd (db w) (GEORADIUS getSiteGeoKey (js_ToString lng) (js_ToString lat)
                                     (js_ToString radius) (toLowerCase u) (Some k1))) = db w).
  { cbn [exec_cmd]. destruct (kv (db w) !! getSiteGeoKey) as [[h|z]|]; [reflexivity| |reflexivity].
    rewrite Hu. reflexivity. }
  rewrite E1.
  assert (E2 : kv (fst (exec_cmd (db w) (ZINTERSTORE k2 [k1; getCapacityRankingKey] [0%Q; 1%Q])))
                 !! k2 = None).
  { cbn [exec_cmd].
    assert (G1 : get_zset (db w) k1 = Ok []) by (unfold get_zset; rewrite Hk1; reflexivity).
    rewrite G1. destruct (get_zset (db w) getCapacityRankingKey) as [zc|e]; [|exact Hk2].
    cbn [fst store_result zinter2 flat_map zs_of_list fold_left del_key kv].
    apply lookup_delete_eq. }
  set (s2 := fst (exec_cmd (db w) (ZINTERSTORE k2 [k1; getCapacityRankingKey] [0%Q; 1%Q]))) in *.
  set (s4 := fst (exec_cmd (fst (exec_cmd s2 (EXPIRE k1 30))) (EXPIRE k2 30))).
  assert (G4 : get_zset s4 k2 = Ok []).
  { unfold get_zset, s4. rewrite !exec_expire_kv, E2. reflexivity. }
  unfold bind, send. cbn [db tmp_used exec_cmd]. rewrite G4. reflexivity.
Qed.

(** X9.  On a store whose site hash keys hold no sorted set,
    findByGeoWithExcessCapacity never rejects, whatever the geo and
    capacity keys hold and whatever the unit. *)
Lemma excess_never_rejects lat lng radius u w :
  (forall m z, kv (db w) !! getSiteHashKey (JStr m) <> Some (RZSet z)) ->
  exists sites, snd (findByGeoWithExcessCapacity lat lng radius u w) = Ok sites.
Proof.
  intros Hs.
  destruct (findByGeoWithExcessCapacity_keys lat lng radius u w)
    as (k1 & k2 & t1 & t2 & H12 & Hk1 & Hk2 & Ht1 & Ht2 & E).
  rewrite E. clear E.
  rewrite !exec_batch_cons_fst. cbn [exec_batch fst].
  set (s1 := fst (exec_cmd (db w) (GEORADIUS getSiteGeoKey (js_ToString lng) (js_ToString lat)
                                     (js_ToString radius) (toLowerCase u) (Some k1)))).
  set (s2 := fst (exec_cmd s1 (ZINTERSTORE k2 [k1; getCapacityRankingKey] [0%Q; 1%Q]))).
  set (s4 := fst (exec_cmd (fst (exec_cmd s2 (EXPIRE k1 30))) (EXPIRE k2 30))).
  assert (Hkv4 : kv s4 = kv s2) by (unfold s4; rewrite !exec_expire_kv; reflexivity).
  assert (Hk2' : kv s1 !! k2 = None).
  { unfold s1. rewrite (proj1 (exec_georadius_other _ _ _ _ _ _ _ _ (not_eq_sym H12))).
    exact Hk2. }
  destruct (zinter_dest_zset s1 k2 [k1; getCapacityRankingKey] [0%Q; 1%Q] Hk2') as [z Hz].
  assert (G4 : get_zset s4 k2 = Ok z).
  { rewrite get_zset_same_kv with (s := s2) by (rewrite Hkv4; reflexivity). exact Hz. }
  assert (Hsame : forall m, kv s4 !! getSiteHashKey (JStr m) = kv (db w) !! getSiteHashKey (JStr m)).
  { intros m. rewrite Hkv4.
    assert (N1 : getSiteHashKey (JStr m) <> k1)
      by (intros H; symmetry in H; rewrite Ht1 in H; exact (tmp_key_not_site _ _ H)).
    assert (N2 : getSiteHashKey (JStr m) <> k2)
      by (intros H; symmetry in H; rewrite Ht2 in H; exact (tmp_key_not_site _ _ H)).
    unfold s2. rewrite (proj1 (exec_zinter_other _ _ _ _ _ N2)).
    unfold s1. rewrite (proj1 (exec_georadius_other _ _ _ _ _ _ _ _ N1)). reflexivity. }
  unfold bind, send. cbn [db tmp_used exec_cmd]. rewrite G4. cbn [list_reply].
  rewrite lookup_sites_value by (intros m z'; rewrite Hsame; apply Hs).
  eexists. reflexivity.
Qed.


(** The value of findByGeoWithExcessCapacity under the hypotheses of its
    main property: the looked-up hashes of the members of the intersection
    whose score reaches the threshold. *)
Lemma excess_value lat lng radius u w zg zc f :
  kv (db w) !! getSiteGeoKey = Some (RZSet zg) ->
  get_zset (db w) getCapacityRankingKey = Ok zc ->
  unit_factor (toLowerCase u) = Some f ->
  geo_args_ok (js_ToString lng) (js_ToString lat) (js_ToString radius) = true ->
  (forall m z, kv (db w) !! getSiteHashKey (JStr m) <> Some (RZSet z)) ->
  snd (findByGeoWithExcessCapacity lat lng radius u w) =
  Ok (flat_map (fun m => match kv (db w) !! getSiteHashKey (JStr m) with
                         | Some (RHash ((_ :: _) as h)) => [remap (hash_to_obj h)]
                         | _ => []
                         end)
        (map fst (List.filter (fun p => Qle_bool capacityThreshold (snd p))
                   (zinter2 0 1 (List.filter (fun p => geo_within (snd p) (js_ToString lng)
                                                  (js_ToString lat) (js_ToString radius) f) zg)
                            zc)))).
Proof.
  intros Hgeo Hcap Hunit Hargs Hsites.
  destruct (findByGeoWithExcessCapacity_keys lat lng radius u w)
    as (k1 & k2 & t1 & t2 & H12 & _ & _ & Ht1 & Ht2 & E).
  rewrite E. clear E.
  rewrite !exec_batch_cons_fst. cbn [exec_batch fst].
  set (found := List.filter (fun p => geo_within (snd p) (js_ToString lng) (js_ToString lat)
                                        (js_ToString radius) f) zg).
  assert (E1 : exec_cmd (db w) (GEORADIUS getSiteGeoKey (js_ToString lng) (js_ToString lat)
                                   (js_ToString radius) (toLowerCase u) (Some k1)) =
               store_result (db w) k1 found)
    by (cbn [exec_cmd]; rewrite Hgeo, Hunit, Hargs; reflexivity).
  rewrite E1.
  set (s1 := fst (store_result (db w) k1 found)).
  assert (Hk1cap : getCapacityRankingKey <> k1)
    by (intros H; symmetry in H; rewrite Ht1 in H; exact (tmp_key_not_capacity _ H)).
  assert (G1 : get_zset s1 k1 = Ok found) by apply get_zset_store_result.
  assert (G2 : get_zset s1 getCapacityRankingKey = Ok zc)
    by (rewrite get_zset_same_kv with (s := db w);
        [exact Hcap | apply store_result_other, Hk1cap]).
  assert (E2 : exec_cmd s1 (ZINTERSTORE k2 [k1; getCapacityRankingKey] [0%Q; 1%Q]) =
               store_result s1 k2 (zinter2 0 1 found zc))
    by (cbn [exec_cmd]; rewrite G1, G2; reflexivity).
  rewrite E2.
  set (s2 := fst (store_result s1 k2 (zinter2 0 1 found zc))).
  set (s4 := fst (exec_cmd (fst (exec_cmd s2 (EXPIRE k1 30))) (EXPIRE k2 30))).
  assert (Hkv4 : kv s4 = kv s2) by (unfold s4; rewrite !exec_expire_kv; reflexivity).
  assert (G4 : get_zset s4 k2 = Ok (zinter2 0 1 found zc)).
  { rewrite get_zset_same_kv with (s := s2) by (rewrite Hkv4; reflexivity).
    apply get_zset_store_result. }
  assert (Hsame : forall m, kv s4 !! getSiteHashKey (JStr m) = kv (db w) !! getSiteHashKey (JStr m)).
  { intros m. rewrite Hkv4.
    assert (N1 : getSiteHashKey (JStr m) <> k1)
      by (intros H; symmetry in H; rewrite Ht1 in H; exact (tmp_key_not_site _ _ H)).
    assert (N2 : getSiteHashKey (JStr m) <> k2)
      by (intros H; symmetry in H; rewrite Ht2 in H; exact (tmp_key_not_site _ _ H)).
    unfold s2. rewrite (proj1 (store_result_other _ _ _ _ N2)).
    unfold s1. rewrite (proj1 (store_result_other _ _ _ _ N1)). reflexivity. }
  unfold bind, send. cbn [db tmp_used exec_cmd]. rewrite G4. cbn [list_reply].
  rewrite lookup_sites_value by (intros m z; rewrite Hsame; apply Hsites).
  cbn [snd]. f_equal. apply flat_map_ext. intros m. rewrite Hsame. reflexivity.
Qed.

(** X10.  Under the hypotheses of its main property, every site
    findByGeoWithExcessCapacity returns is also returned by findByGeo with
    the same arguments on the same store. *)
Lemma excess_within_findByGeo lat lng radius u w zg zc f :
  kv (db w) !! getSiteGeoKey = Some (RZSet zg) ->
  get_zset (db w) getCapacityRankingKey = Ok zc ->
  unit_factor (toLowerCase u) = Some f ->
  geo_args_ok (js_ToString lng) (js_ToString lat) (js_ToString radius) = true ->
  (forall m z, kv (db w) !! getSiteHashKey (JStr m) <> Some (RZSet z)) ->
  exists sites all,
    snd (findByGeoWithExcessCapacity lat lng radius u w) = Ok sites /\
    findByGeo lat lng radius u w = (w, Ok all) /\
    incl sites all.
Proof.
  intros Hgeo Hcap Hunit Hargs Hsites.
  rewrite (excess_value lat lng radius u w zg zc f Hgeo Hcap Hunit Hargs Hsites).
  destruct w as [s t]. cbn [db] in *.
  do 2 eexists. split; [reflexivity|]. split.
  - unfold findByGeo, bind, send. cbn [db tmp_used exec_cmd]. rewrite Hgeo, Hunit, Hargs.
    cbn [list_reply]. rewrite lookup_sites_value by apply Hsites. reflexivity.
  - intros x Hx. apply in_flat_map in Hx as (m & Hm & Hx). apply in_flat_map.
    exists m. split; [|exact Hx].
    apply in_map_iff in Hm as ([m' sc] & Hm' & Hf). cbn [fst] in Hm'. subst m'.
    apply filter_In in Hf as [Hi _].
    destruct (in_zinter2 _ _ _ _ _ _ Hi) as (sg & q & Hg & _ & _).
    apply in_map_iff. exists (m, sg). split; [reflexivity|exact Hg].
Qed.

(** X11.  When the geo key holds a sorted set (or nothing) and no site hash
    key holds a sorted set, findAll and findById agree: findAll leaves the
    store alone and returns exactly the sites findById finds for the members
    of the geo set. *)
Lemma findAll_findById w zg :
  get_zset (db w) getSiteGeoKey = Ok zg ->
  (forall m z, kv (db w) !! getSiteHashKey (JStr m) <> Some (RZSet z)) ->
  exists sites, findAll w = (w, Ok sites) /\
    forall x, In x sites <->
      exists m, In m (map fst zg) /\ findById (JStr m) w = (w, Ok (Some x)).
Proof.
  intros Hg Hs. eexists. split; [exact (findAll_value w zg Hg Hs)|].
  intros x. rewrite in_flat_map. destruct w as [s t]. cbn [db] in *.
  split.
  - intros (m & Hm & Hx). exists m. split; [exact Hm|].
    rewrite findById_value by (intros z; apply Hs).
    destruct (kv s !! getSiteHashKey (JStr m)) as [[[|p h]|z]|];
      cbn [In] in Hx; try contradiction.
    destruct Hx as [<-|[]]. reflexivity.
  - intros (m & Hm & E). exists m. split; [exact Hm|].
    rewrite findById_value in E by (intros z; apply Hs).
    destruct (kv s !! getSiteHashKey (JStr m)) as [[[|p h]|z]|]; try discriminate.
    injection E as <-. left. reflexivity.
Qed.


(** ** The logger *)

Lemma substring_app_length m s :
  String.substring 0 (String.length m) (String.append m s) = m.
Proof.
  induction m as [|a m IH]; [destruct s; reflexivity|].
  simpl. f_equal. exact IH.
Qed.

(** X12.  The stream the request logger writes to hands [logger.info] its
    message without the last character, the newline each request line ends
    with; an empty message is passed on as it is. *)
Lemma logger_stream_write_strips m c :
  logger_stream_write (String.append m (String c EmptyString)) = m /\
  logger_stream_write EmptyString = EmptyString.
Proof.
  split; [|reflexivity].
  unfold logger_stream_write.
  assert (L : String.length (String.append m (String c EmptyString)) = S (String.length m)).
  { induction m as [|a m IH]; [reflexivity|]. simpl. rewrite IH. reflexivity. }
  rewrite L. cbn [Nat.ltb Nat.leb]. rewrite Nat.sub_1_r. cbn [Nat.pred].
  apply substring_app_length.
Qed.

End Client.

Lemma findById_absent_present_witness :
  findById line_geoencode line_geo_args_ok line_geo_within (JNum (NFin 1 0)) empty_world =
  (empty_world, Ok None).
Proof.
  apply (proj1 (findById_absent_present line_geoencode line_geo_args_ok line_geo_within
                  (JNum (NFin 1 0)) (mkStore ∅ ∅) ∅)).
  reflexivity.
Defined.

Lemma remap_sentinel_guarded_witness :
  findById line_geoencode line_geo_args_ok line_geo_within (JStr "42") empty_world =
  (empty_world, Ok None).
Proof.
  apply (proj2 (proj2 (remap_sentinel_guarded line_geoencode line_geo_args_ok line_geo_within
                         (JStr "42") (mkStore ∅ ∅) ∅))).
  reflexivity.
Defined.

Lemma insert_without_coordinate_witness :
  exists s',
    insert line_geoencode line_geo_args_ok line_geo_within no_coordinate_site empty_world =
      (mkWorld s' ∅, Throw (Error "Coordinate required for site geo insert!")) /\
    kv s' !! getSiteHashKey (JNum (NFin 1 0)) =
      Some (RHash [("id", "1"); ("panels", "1"); ("capacity", "1")]).
Proof.
  apply (insert_without_coordinate line_geoencode line_geo_args_ok line_geo_within
           no_coordinate_site (mkStore ∅ ∅) ∅); [reflexivity | discriminate | reflexivity].
Defined.

Lemma findByGeo_unit_case_witness :
  findByGeo line_geoencode line_geo_args_ok line_geo_within
    (JNum (NFin 3775 (-2))) (JNum (NFin (-12241) (-2))) (JNum (NFin 5 0)) "KM" empty_world =
  findByGeo line_geoencode line_geo_args_ok line_geo_within
    (JNum (NFin 3775 (-2))) (JNum (NFin (-12241) (-2))) (JNum (NFin 5 0)) "km" empty_world.
Proof.
  apply (findByGeo_unit_case line_geoencode line_geo_args_ok line_geo_within
           (JNum (NFin 3775 (-2))) (JNum (NFin (-12241) (-2))) (JNum (NFin 5 0))
           "KM" "km" empty_world).
  reflexivity.
Defined.



Lemma insert_success_witness :
  exists w' k,
    insert line_geoencode line_geo_args_ok line_geo_within sample_site empty_world = (w', Ok k) /\
    k = getSiteHashKey (JNum (NFin 7 0)).
Proof.
  destruct (insert line_geoencode line_geo_args_ok line_geo_within sample_site empty_world)
    as [w' [k|e]] eqn:E; [|vm_compute in E; discriminate E].
  exists w', k. split; [reflexivity|].
  refine (proj1 (insert_success line_geoencode line_geo_args_ok line_geo_within
                   sample_site empty_world w' k _ E)).
  repeat (constructor; [cbn; intuition discriminate|]). constructor.
Defined.

Lemma findByGeoWithExcessCapacity_spec_witness :
  exists sites,
    snd (findByGeoWithExcessCapacity line_geoencode line_geo_args_ok line_geo_within
           (JNum (NFin 1 0)) (JNum (NFin 1 0)) (JNum (NFin 5 0)) "km" c1_world) = Ok sites.
Proof.
  assert (Hty : forall m z, kv (db c1_world) !! getSiteHashKey (JStr m) <> Some (RZSet z)).
  { intros m z. cbn [c1_world db kv].
    rewrite lookup_insert_ne by (intros H; symmetry in H; exact (siteHashKey_not_geo _ H)).
    destruct (decide (getSiteHashKey (JStr "7") = getSiteHashKey (JStr m))) as [<-|Hne].
    + rewrite lookup_insert_eq. discriminate.
    + rewrite lookup_insert_ne by exact Hne.
      rewrite lookup_insert_ne by (intros H; symmetry in H; exact (siteHashKey_not_capacity _ H)).
      rewrite lookup_empty. discriminate. }
  destruct (proj2 (findByGeoWithExcessCapacity_spec line_geoencode line_geo_args_ok line_geo_within
                     (JNum (NFin 1 0)) (JNum (NFin 1 0)) (JNum (NFin 5 0)) "km" c1_world
                     [("7", 2%Q)] [("7", 1 # 2)] 1000%Q
                     eq_refl eq_refl eq_refl eq_refl Hty))
    as (sites & Hs & _).
  exists sites. exact Hs.
Defined.

Lemma findAll_spec_witness :
  exists w' ks res,
    insert_each line_geoencode line_geo_args_ok line_geo_within
      [sample_site; sample_site_8] empty_world = (w', Ok ks) /\
    findAll line_geoencode line_geo_args_ok line_geo_within w' = (w', Ok res) /\
    Permutation (map Ok res) (map site_roundtrip [sample_site; sample_site_8]).
Proof.
  destruct (insert_each line_geoencode line_geo_args_ok line_geo_within
              [sample_site; sample_site_8] empty_world) as [w' [ks|e]] eqn:E;
    [|vm_compute in E; discriminate E].
  destruct (proj2 (findAll_spec line_geoencode line_geo_args_ok line_geo_within)
              [sample_site; sample_site_8] w' ks) as (res & H1 & H2).
  - vm_compute. repeat (constructor; [cbn; intuition discriminate|]). constructor.
  - constructor; [|constructor; [|constructor]]; vm_compute;
      repeat (constructor; [cbn; intuition discriminate|]); constructor.
  - exact E.
  - exists w', ks, res. auto.
Defined.

(** The site hash keys of [c1_world] hold no sorted set. *)
Lemma c1_world_sites_typed :
  forall m z, kv (db c1_world) !! getSiteHashKey (JStr m) <> Some (RZSet z).
Proof.
  intros m z. cbn [c1_world db kv].
  rewrite lookup_insert_ne by (intros H; symmetry in H; exact (siteHashKey_not_geo _ H)).
  destruct (decide (getSiteHashKey (JStr "7") = getSiteHashKey (JStr m))) as [<-|Hne].
  - rewrite lookup_insert_eq. discriminate.
  - rewrite lookup_insert_ne by exact Hne.
    rewrite lookup_insert_ne by (intros H; symmetry in H; exact (siteHashKey_not_capacity _ H)).
    rewrite lookup_empty. discriminate.
Qed.

Lemma flatten_coordinate_witness :
  exists f, flatten sample_site = Ok f /\ obj_get f "lat" = Some (JNum (NFin 3775 (-2))).
Proof.
  destruct (flatten_coordinate sample_site
              [("lat", JNum (NFin 3775 (-2))); ("lng", JNum (NFin (-12241) (-2)))] eq_refl)
    as (f & Hf & Hlat & _).
  exists f. split; [exact Hf | exact Hlat].
Defined.

Lemma insert_null_coordinate_witness :
  insert line_geoencode line_geo_args_ok line_geo_within (obj_set sample_site "coordinate" JNull) empty_world =
  (empty_world, Throw TypeError).
Proof.
  apply (insert_null_coordinate line_geoencode line_geo_args_ok line_geo_within (obj_set sample_site "coordinate" JNull) empty_world).
  - reflexivity.
  - left. reflexivity.
Defined.

Lemma insert_then_findById_witness :
  exists w' k r,
    insert line_geoencode line_geo_args_ok line_geo_within sample_site empty_world = (w', Ok k) /\
    findById line_geoencode line_geo_args_ok line_geo_within (JNum (NFin 7 0)) w' = (w', Ok (Some r)).
Proof.
  destruct (insert line_geoencode line_geo_args_ok line_geo_within sample_site empty_world) as [w' [k|e]] eqn:E;
    [|vm_compute in E; discriminate E].
  destruct (insert_then_findById line_geoencode line_geo_args_ok line_geo_within sample_site empty_world w' k) as (r & _ & Hr).
  - repeat (constructor; [cbn; intuition discriminate|]). constructor.
  - reflexivity.
  - exact E.
  - exists w', k, r. split; [reflexivity | exact Hr].
Defined.

Lemma insert_idempotent_witness :
  exists w' k,
    insert line_geoencode line_geo_args_ok line_geo_within sample_site empty_world = (w', Ok k) /\
    insert line_geoencode line_geo_args_ok line_geo_within sample_site w' = (w', Ok k).
Proof.
  destruct (insert line_geoencode line_geo_args_ok line_geo_within sample_site empty_world) as [w' [k|e]] eqn:E;
    [|vm_compute in E; discriminate E].
  exists w', k. split; [reflexivity|].
  apply (insert_idempotent line_geoencode line_geo_args_ok line_geo_within sample_site empty_world w' k); [|exact E].
  repeat (constructor; [cbn; intuition discriminate|]). constructor.
Defined.

Lemma findByGeo_result_witness :
  exists sites,
    findByGeo line_geoencode line_geo_args_ok line_geo_within
      (JNum (NFin 1 0)) (JNum (NFin 1 0)) (JNum (NFin 5 0)) "km" c1_world = (c1_world, Ok sites).
Proof.
  destruct (findByGeo_result line_geoencode line_geo_args_ok line_geo_within
              (JNum (NFin 1 0)) (JNum (NFin 1 0)) (JNum (NFin 5 0)) "km" c1_world
              [("7", 2%Q)] 1000%Q eq_refl eq_refl eq_refl c1_world_sites_typed)
    as (sites & Hs & _).
  exists sites. exact Hs.
Defined.

Lemma findByGeo_bad_unit_witness :
  findByGeo line_geoencode line_geo_args_ok line_geo_within
    (JNum (NFin 1 0)) (JNum (NFin 1 0)) (JNum (NFin 5 0)) "yd" c1_world =
  (c1_world, Throw (ReplyError "ERR")).
Proof.
  exact (findByGeo_bad_unit line_geoencode line_geo_args_ok line_geo_within
           (JNum (NFin 1 0)) (JNum (NFin 1 0)) (JNum (NFin 5 0)) "yd" c1_world
           [("7", 2%Q)] eq_refl eq_refl).
Defined.

Lemma excess_bad_unit_witness :
  snd (findByGeoWithExcessCapacity line_geoencode line_geo_args_ok line_geo_within
         (JNum (NFin 1 0)) (JNum (NFin 1 0)) (JNum (NFin 5 0)) "yd" c1_world) = Ok [].
Proof.
  exact (excess_bad_unit line_geoencode line_geo_args_ok line_geo_within
           (JNum (NFin 1 0)) (JNum (NFin 1 0)) (JNum (NFin 5 0)) "yd" c1_world eq_refl).
Defined.

Lemma excess_never_rejects_witness :
  exists sites,
    snd (findByGeoWithExcessCapacity line_geoencode line_geo_args_ok line_geo_within
           (JNum (NFin 1 0)) (JNum (NFin 1 0)) (JNum (NFin 5 0)) "mi" c1_world) = Ok sites.
Proof.
  exact (excess_never_rejects line_geoencode line_geo_args_ok line_geo_within
           (JNum (NFin 1 0)) (JNum (NFin 1 0)) (JNum (NFin 5 0)) "mi" c1_world
           c1_world_sites_typed).
Defined.

Lemma excess_within_findByGeo_witness :
  exists sites all,
    snd (findByGeoWithExcessCapacity line_geoencode line_geo_args_ok line_geo_within
           (JNum (NFin 1 0)) (JNum (NFin 1 0)) (JNum (NFin 5 0)) "km" c1_world) = Ok sites /\
    findByGeo line_geoencode line_geo_args_ok line_geo_within
      (JNum (NFin 1 0)) (JNum (NFin 1 0)) (JNum (NFin 5 0)) "km" c1_world = (c1_world, Ok all) /\
    incl sites all.
Proof.
  exact (excess_within_findByGeo line_geoencode line_geo_args_ok line_geo_within
           (JNum (NFin 1 0)) (JNum (NFin 1 0)) (JNum (NFin 5 0)) "km" c1_world
           [("7", 2%Q)] [("7", 1 # 2)] 1000%Q eq_refl eq_refl eq_refl eq_refl c1_world_sites_typed).
Defined.

Lemma findAll_findById_witness :
  exists sites,
    findAll line_geoencode line_geo_args_ok line_geo_within c1_world = (c1_world, Ok sites).
Proof.
  destruct (findAll_findById line_geoencode line_geo_args_ok line_geo_within c1_world
              [("7", 2%Q)] eq_refl c1_world_sites_typed) as (sites & Hs & _).
  exists sites. exact Hs.
Defined.

Lemma findByGeo_empty_index_witness :
  findByGeo line_geoencode line_geo_args_ok line_geo_within
    (JNum (NFin 1 0)) (JNum (NFin 1 0)) (JNum (NFin 5 0)) "KM" empty_world =
  (empty_world, Ok []).
Proof.
  exact (findByGeo_empty_index line_geoencode line_geo_args_ok line_geo_within
           (JNum (NFin 1 0)) (JNum (NFin 1 0)) (JNum (NFin 5 0)) "KM" empty_world 1000%Q
           eq_refl eq_refl).
Defined.
